(** * rss-reader: normalisation, merge and persistence

    A shallow embedding of the feed store of [src/main.js] (the Node
    back end: load, normalise, merge, serialise) and of the date
    resolvers and normaliser of the Go program ([package main]).

    Conventions of the JavaScript part.
    - [undefined] is [None]; a property holding a string is [Some s]; a
      property that can hold a string, a number or a boolean is an
      optional [JsValue].
    - A [Date] object is its time value: an integer number of
      milliseconds, or NaN for an Invalid Date.
    - A [Map] is an association list in insertion order with at most one
      binding per key: [Map.prototype.set] overwrites a binding where it
      stands and appends a new one at the end, and [values()] enumerates
      in that order, which is the order [JSON.stringify] writes. *)

From Stdlib Require Import List String Ascii ZArith Bool Lia.
From Stdlib Require Import Permutation Sorted.
From Stdlib Require QArith Qcanon.
Import ListNotations.
Local Open Scope string_scope.
Local Open Scope list_scope.
Local Open Scope Z_scope.

(* ===================================================================== *)
(** * Part I: definitions                                                 *)
(* ===================================================================== *)

(** ** JavaScript values used by the store *)

(** A finite Number, by its exact value.  [-0] is not told from [0]:
    they are the same [Map] key, equally falsy, and written alike by
    [String] and by [JSON.stringify]. *)
Definition Number : Type := Qcanon.Qc.

Definition Number_of_Z (z : Z) : Number :=
  Qcanon.Q2Qc (QArith_base.inject_Z z).

Definition Number_eqb (a b : Number) : bool :=
  if Qcanon.Qc_eq_dec a b then true else false.

Definition Number_is_zero (n : Number) : bool :=
  QArith_base.Qnum (Qcanon.this n) =? 0.

(** The integral part of a Number, rounding towards zero. *)
Definition Number_truncate (n : Number) : Z :=
  Z.quot (QArith_base.Qnum (Qcanon.this n))
         (Z.pos (QArith_base.Qden (Qcanon.this n))).

(** [abs(n) <= bound]. *)
Definition Number_within (bound : Z) (n : Number) : bool :=
  Z.abs (QArith_base.Qnum (Qcanon.this n))
  <=? bound * Z.pos (QArith_base.Qden (Qcanon.this n)).

(** A primitive value other than [undefined]: a string, a finite number
    or a boolean.  The text of an XML element is one (fast-xml-parser
    converts a text that spells a number or a boolean), and so is every
    id taken from such a text or read from the file. *)
Inductive JsValue : Type :=
| JsString (s : string)
| JsNumber (n : Number)
| JsBoolean (b : bool).

Definition JsValue_eqb (a b : JsValue) : bool :=
  match a, b with
  | JsString x, JsString y => String.eqb x y
  | JsNumber x, JsNumber y => Number_eqb x y
  | JsBoolean x, JsBoolean y => Bool.eqb x y
  | _, _ => false
  end.

(** A map key or an id: [undefined] or a primitive value.  Two keys are
    the same key when they are the same value of the same type: the
    number [5] and the string ["5"] are two keys. *)
Definition Key := option JsValue.

Definition key_eqb (a b : Key) : bool :=
  match a, b with
  | None, None => true
  | Some x, Some y => JsValue_eqb x y
  | _, _ => false
  end.

(** The time value of a [Date]. *)
Inductive Date : Type :=
| TimeValue (ms : Z)
| InvalidDate.

(** [a > b] on two [Date] objects: both are converted to their time
    values, and every comparison with NaN is false. *)
Definition Date_gt (a b : Date) : bool :=
  match a, b with
  | TimeValue x, TimeValue y => y <? x
  | _, _ => false
  end.

(** ** [Map] *)

Section JsMap.
Variable V : Type.

Definition JsMap := list (Key * V).

Fixpoint Map_get (k : Key) (m : JsMap) : option V :=
  match m with
  | [] => None
  | (k', v) :: m' => if key_eqb k k' then Some v else Map_get k m'
  end.

Fixpoint Map_set (k : Key) (v : V) (m : JsMap) : JsMap :=
  match m with
  | [] => [(k, v)]
  | (k', v') :: m' =>
      if key_eqb k k' then (k, v) :: m' else (k', v') :: Map_set k v m'
  end.

Definition Map_keys (m : JsMap) : list Key := map fst m.
Definition Map_values (m : JsMap) : list V := map snd m.

(** No key is bound twice: what every [Map] satisfies. *)
Definition Map_wf (m : JsMap) : Prop := NoDup (Map_keys m).

End JsMap.

Arguments Map_get {V} k m.
Arguments Map_set {V} k v m.
Arguments Map_keys {V} m.
Arguments Map_values {V} m.
Arguments Map_wf {V} m.

(** ** The canonical records *)

Module Article.
Record t : Type := mk {
  title : option string;
  link : option string;
  id : Key;
  published : Date;
  updated : Date
}.
End Article.

(** A feed as the normaliser returns it: its articles are an array. *)
Module NewFeed.
Record t : Type := mk {
  title : option string;
  description : option string;
  link : option string;
  id : Key;
  articles : list Article.t;
  updated : Date
}.
End NewFeed.

(** A feed as the store holds it: its articles are a [Map] by id. *)
Module Feed.
Record t : Type := mk {
  title : option string;
  description : option string;
  link : option string;
  id : Key;
  articles : JsMap Article.t;
  updated : Date
}.

(** [feed.articles] after the mutations a loop made to it. *)
Definition with_articles (feed : t) (arts : JsMap Article.t) : t :=
  {| title := title feed; description := description feed;
     link := link feed; id := id feed; articles := arts;
     updated := updated feed |}.
End Feed.

(** The store: [const feeds = new Map()]. *)
Definition Store := JsMap Feed.t.

(** ** Merge (updateFeeds, "Append new articles and feeds") *)

(** Body of the inner loop, main.js 267-270:
[[
  const article = feed.articles.get(newArticle.id);
  if (!article || newArticle.updated > article.updated) {
      feed.articles.set(newArticle.id, newArticle);
  }
]]
    A stored article is an object, hence truthy. *)
Definition merge_article (articles : JsMap Article.t) (newArticle : Article.t)
  : JsMap Article.t :=
  match Map_get (Article.id newArticle) articles with
  | None => Map_set (Article.id newArticle) newArticle articles
  | Some article =>
      if Date_gt (Article.updated newArticle) (Article.updated article)
      then Map_set (Article.id newArticle) newArticle articles
      else articles
  end.

(** The inner loop, [for (const newArticle of newFeed.articles)]. *)
Definition merge_articles (articles : JsMap Article.t) (news : list Article.t)
  : JsMap Article.t :=
  fold_left merge_article news articles.

(** The feed object a first sighting creates, main.js 252-259. *)
Definition fresh_feed (newFeed : NewFeed.t) : Feed.t :=
  {| Feed.title := NewFeed.title newFeed;
     Feed.description := NewFeed.description newFeed;
     Feed.link := NewFeed.link newFeed;
     Feed.id := NewFeed.id newFeed;
     Feed.articles := [];
     Feed.updated := NewFeed.updated newFeed |}.

(** Body of the outer loop, main.js 250-271.  [feed] is the object bound
    at key [newFeed.id] (found there, or put there by line 261); the inner
    loop mutates its [articles] in place, which is written here as
    rebinding that key to the mutated object. *)
Definition merge (feeds : Store) (newFeed : NewFeed.t) : Store :=
  let '(feed, feeds1) :=
    match Map_get (NewFeed.id newFeed) feeds with
    | Some feed => (feed, feeds)
    | None =>
        let feed := fresh_feed newFeed in
        (feed, Map_set (NewFeed.id newFeed) feed feeds)
    end in
  Map_set (NewFeed.id newFeed)
    (Feed.with_articles feed
       (merge_articles (Feed.articles feed) (NewFeed.articles newFeed)))
    feeds1.

(** The outer loop, [for (const newFeed of newFeeds)]. *)
Definition merge_all (feeds : Store) (newFeeds : list NewFeed.t) : Store :=
  fold_left merge newFeeds feeds.

(** The object the outer loop body works on. *)
Definition target (feeds : Store) (newFeed : NewFeed.t) : Feed.t :=
  match Map_get (NewFeed.id newFeed) feeds with
  | Some feed => feed
  | None => fresh_feed newFeed
  end.

(** [b] is settled in [articles] when offering it changes nothing: its id
    is bound and [b.updated > article.updated] is false. *)
Definition settled (articles : JsMap Article.t) (b : Article.t) : Prop :=
  exists a, Map_get (Article.id b) articles = Some a /\
            Date_gt (Article.updated b) (Article.updated a) = false.

(** ** Persistence: the JSON file

    [JSON.stringify] leaves out a property whose value is [undefined], so
    reading it back gives [undefined] again, and it writes a string, a
    finite number and a boolean exactly.  A [Date] is written by [Date.prototype.toJSON]: the ISO-8601
    string of its time value (millisecond precision), or [null] for an
    Invalid Date.  The ISO string is represented by the time value it
    denotes: [new Date] of such a string gives that time value back. *)

Inductive JsonDate : Type :=
| JsonIso (ms : Z)
| JsonNull
| JsonAbsent.

Definition toJSON (d : Date) : JsonDate :=
  match d with
  | TimeValue ms => JsonIso ms
  | InvalidDate => JsonNull
  end.

(** [new Date(v)] for a value read from the file: [new Date(null)] is the
    epoch and [new Date(undefined)] is an Invalid Date. *)
Definition new_Date_of_json (v : JsonDate) : Date :=
  match v with
  | JsonIso ms => TimeValue ms
  | JsonNull => TimeValue 0
  | JsonAbsent => InvalidDate
  end.

(** The parsed file has the shape [save] writes: an array of feed objects,
    each with an [articles] array. *)
Module RawArticle.
Record t : Type := mk {
  title : option string;
  link : option string;
  id : Key;
  published : JsonDate;
  updated : JsonDate
}.
End RawArticle.

Module RawFeed.
Record t : Type := mk {
  title : option string;
  description : option string;
  link : option string;
  id : Key;
  articles : list RawArticle.t;
  updated : JsonDate
}.
End RawFeed.

(** What [JSON.stringify] writes for an article object. *)
Definition stringify_article (article : Article.t) : RawArticle.t :=
  {| RawArticle.title := Article.title article;
     RawArticle.link := Article.link article;
     RawArticle.id := Article.id article;
     RawArticle.published := toJSON (Article.published article);
     RawArticle.updated := toJSON (Article.updated article) |}.

(** Serialisation, main.js 277-287: [flattened], as [JSON.stringify]
    writes it. *)
Definition save (feeds : Store) : list RawFeed.t :=
  map (fun feed =>
         {| RawFeed.title := Feed.title feed;
            RawFeed.description := Feed.description feed;
            RawFeed.link := Feed.link feed;
            RawFeed.id := Feed.id feed;
            RawFeed.articles :=
              map stringify_article (Map_values (Feed.articles feed));
            RawFeed.updated := toJSON (Feed.updated feed) |})
      (Map_values feeds).

(** main.js 34-40: the article object built from [rawArticle].  Line 39
    reads [updated: new Date(rawArticle.published)]. *)
Definition load_article (rawArticle : RawArticle.t) : Article.t :=
  {| Article.title := RawArticle.title rawArticle;
     Article.link := RawArticle.link rawArticle;
     Article.id := RawArticle.id rawArticle;
     Article.published := new_Date_of_json (RawArticle.published rawArticle);
     Article.updated := new_Date_of_json (RawArticle.published rawArticle) |}.

(** main.js 32-42. *)
Definition load_articles (rawArticles : list RawArticle.t)
  : JsMap Article.t :=
  fold_left (fun articles rawArticle =>
               let article := load_article rawArticle in
               Map_set (Article.id article) article articles)
            rawArticles [].

(** main.js 44-51. *)
Definition load_feed (rawFeed : RawFeed.t) : Feed.t :=
  {| Feed.title := RawFeed.title rawFeed;
     Feed.description := RawFeed.description rawFeed;
     Feed.link := RawFeed.link rawFeed;
     Feed.id := RawFeed.id rawFeed;
     Feed.articles := load_articles (RawFeed.articles rawFeed);
     Feed.updated := new_Date_of_json (RawFeed.updated rawFeed) |}.

(** Loading the saved feeds, main.js 27-54, from the parsed file. *)
Definition load (rawFeedList : list RawFeed.t) : Store :=
  fold_left (fun feeds rawFeed =>
               let feed := load_feed rawFeed in
               Map_set (Feed.id feed) feed feeds)
            rawFeedList [].

(** A [Date] after it went through the file: its own time value, and
    the epoch for an Invalid Date. *)
Definition Date_read_back (d : Date) : Date :=
  match d with
  | TimeValue ms => TimeValue ms
  | InvalidDate => TimeValue 0
  end.

(** What a save followed by a load makes of an article and of a feed
    that are bound under their own ids. *)
Definition reload_article (article : Article.t) : Article.t :=
  load_article (stringify_article article).

Definition reload_feed (feed : Feed.t) : Feed.t :=
  {| Feed.title := Feed.title feed;
     Feed.description := Feed.description feed;
     Feed.link := Feed.link feed;
     Feed.id := Feed.id feed;
     Feed.articles :=
       map (fun kv => (fst kv, reload_article (snd kv))) (Feed.articles feed);
     Feed.updated := new_Date_of_json (toJSON (Feed.updated feed)) |}.

(** ** Normalisation (updateFeeds, "Parse and remap feeds")

    What the normaliser calls but does not define is a parameter:
    [sanitizeHtml], the [URL] constructor, [Date.parse] and the clock
    behind [new Date()]. *)

Class Host : Type := {
  (** [sanitizeHtml(v)]; the argument may be [undefined]. *)
  sanitizeHtml : option JsValue -> string;
  (** [(new URL(s)).href], or [None] when the constructor throws. *)
  URL_href : string -> option string;
  (** The time value of [new Date(s)] for a string [s]. *)
  Date_parse : string -> Date;
  (** The time value of the [n]-th [new Date()] of the parsing pass
      (main.js 95-244). *)
  wall : nat -> Z
}.

(** An element as fast-xml-parser builds it with [alwaysCreateTextNode]
    and [ignoreAttributes: false]: its text and the two attributes the
    code reads.  With [parseTagValue] left on, the text of an element
    that spells a boolean or a number is stored as that boolean or
    number, and any other text as a string; an attribute is always a
    string. *)
Record XmlNode : Type := {
  hash_text : option JsValue;  (* node["#text"]  *)
  at_rel : option string;      (* node["@_rel"]  *)
  at_href : option string      (* node["@_href"] *)
}.

Module Rss.
Record item : Type := {
  item_title : option XmlNode;
  item_link : option XmlNode;
  item_guid : option XmlNode;
  item_pubDate : option XmlNode
}.
(** [xmlFeed.rss.channel]. *)
Record channel : Type := {
  title : option XmlNode;
  description : option XmlNode;
  link : option XmlNode;
  items : option (list item);   (* rss.item, an array when present *)
  lastBuildDate : option XmlNode;
  pubDate : option XmlNode
}.
End Rss.

Module Atom.
Record entry : Type := {
  entry_title : option XmlNode;
  entry_link : option (list XmlNode);   (* always an array when present *)
  entry_id : option XmlNode;
  entry_published : option XmlNode;
  entry_updated : option XmlNode
}.
(** [feed.link] is not in [arrayPaths]: one [link] element gives an
    object, several give an array. *)
Inductive links : Type :=
| OneLink (node : XmlNode)
| ManyLinks (nodes : list XmlNode).
(** [xmlFeed.feed]. *)
Record feed : Type := {
  title : option XmlNode;
  subtitle : option XmlNode;
  link : option links;
  id : option XmlNode;
  entries : option (list entry);   (* atom.entry *)
  updated : option XmlNode
}.
End Atom.

(** The object [xmlParser.parse] returns, as far as the code looks at it:
    the property [rss] with its [channel], and the property [feed].  A
    document with another root element has neither. *)
Record XmlFeed : Type := {
  rss : option (option Rss.channel);
  feed : option Atom.feed
}.

(** An element of [rawFeeds]: [NoText] is what the filter of line 96
    drops (the [""] of a failed download, or an empty body); [Text url x]
    is a downloaded non-empty text with the outcome [x] of
    [xmlParser.parse(text, true)], [None] when it throws. *)
Inductive RawText : Type :=
| NoText
| Text (url : string) (xmlFeed : option XmlFeed).

(** The state a normalisation runs in: the number of [new Date()] calls
    made so far, and the [feed] object the callback is filling.  A
    computation returns a value, or [None] when it throws; the state
    survives the throw. *)
Record World : Type := { ticks : nat; current : NewFeed.t }.

Definition Js (A : Type) : Type := World -> option A * World.

Definition ret {A : Type} (a : A) : Js A := fun w => (Some a, w).

Definition throw {A : Type} : Js A := fun w => (None, w).

Definition bind {A B : Type} (m : Js A) (k : A -> Js B) : Js B :=
  fun w => match m w with
           | (Some a, w') => k a w'
           | (None, w') => (None, w')
           end.

Notation "x <- m ;; k" := (bind m (fun x => k))
  (at level 61, m at next level, right associativity).
Notation "m ;;; k" := (bind m (fun _ => k))
  (at level 61, right associativity).

(** [array.map(f)], left to right. *)
Fixpoint Array_map {A B : Type} (f : A -> Js B) (l : list A) : Js (list B) :=
  match l with
  | [] => ret []
  | a :: l' => b <- f a ;; bs <- Array_map f l' ;; ret (b :: bs)
  end.

(** Assignment to a property of [feed]. *)
Definition assign (f : NewFeed.t -> NewFeed.t) : Js unit :=
  fun w => (Some tt, {| ticks := ticks w; current := f (current w) |}).

Definition set_title (v : option string) (f : NewFeed.t) : NewFeed.t :=
  {| NewFeed.title := v; NewFeed.description := NewFeed.description f;
     NewFeed.link := NewFeed.link f; NewFeed.id := NewFeed.id f;
     NewFeed.articles := NewFeed.articles f;
     NewFeed.updated := NewFeed.updated f |}.

Definition set_description (v : option string) (f : NewFeed.t) : NewFeed.t :=
  {| NewFeed.title := NewFeed.title f; NewFeed.description := v;
     NewFeed.link := NewFeed.link f; NewFeed.id := NewFeed.id f;
     NewFeed.articles := NewFeed.articles f;
     NewFeed.updated := NewFeed.updated f |}.

Definition set_link (v : option string) (f : NewFeed.t) : NewFeed.t :=
  {| NewFeed.title := NewFeed.title f;
     NewFeed.description := NewFeed.description f;
     NewFeed.link := v; NewFeed.id := NewFeed.id f;
     NewFeed.articles := NewFeed.articles f;
     NewFeed.updated := NewFeed.updated f |}.

Definition set_id (v : Key) (f : NewFeed.t) : NewFeed.t :=
  {| NewFeed.title := NewFeed.title f;
     NewFeed.description := NewFeed.description f;
     NewFeed.link := NewFeed.link f; NewFeed.id := v;
     NewFeed.articles := NewFeed.articles f;
     NewFeed.updated := NewFeed.updated f |}.

Definition set_articles (v : list Article.t) (f : NewFeed.t) : NewFeed.t :=
  {| NewFeed.title := NewFeed.title f;
     NewFeed.description := NewFeed.description f;
     NewFeed.link := NewFeed.link f; NewFeed.id := NewFeed.id f;
     NewFeed.articles := v;
     NewFeed.updated := NewFeed.updated f |}.

Definition set_updated (v : Date) (f : NewFeed.t) : NewFeed.t :=
  {| NewFeed.title := NewFeed.title f;
     NewFeed.description := NewFeed.description f;
     NewFeed.link := NewFeed.link f; NewFeed.id := NewFeed.id f;
     NewFeed.articles := NewFeed.articles f;
     NewFeed.updated := v |}.

(** Truthiness of a text: [undefined], the empty string, [0] and [false]
    are falsy. *)
Definition truthy (t : option JsValue) : bool :=
  match t with
  | None => false
  | Some (JsString s) => negb (String.eqb s EmptyString)
  | Some (JsNumber n) => negb (Number_is_zero n)
  | Some (JsBoolean b) => b
  end.

(** [t ?? d]. *)
Definition nullish {A : Type} (t : option A) (d : A) : A :=
  match t with Some s => s | None => d end.

(** The largest time value of a [Date], in milliseconds. *)
Definition max_time : Z := 8640000000000000.

Section Normalise.
Context {host : Host}.

(** [new Date()]. *)
Definition Date_now : Js Date :=
  fun w => (Some (TimeValue (wall (ticks w))),
            {| ticks := S (ticks w); current := current w |}).

(** [new Date(t)]: a string is parsed; a number is the time value
    itself, cut to an integer, when it is in the range of a [Date]; a
    boolean counts as the number 1 or 0; [new Date(undefined)] is an
    Invalid Date. *)
Definition new_Date (t : option JsValue) : Date :=
  match t with
  | Some (JsString s) => Date_parse s
  | Some (JsNumber n) =>
      if Number_within max_time n
      then TimeValue (Number_truncate n) else InvalidDate
  | Some (JsBoolean b) => TimeValue (if b then 1 else 0)
  | None => InvalidDate
  end.

(** [(new URL(t)).href], or [None] when the constructor throws.  The
    argument is converted to a string, so [undefined] is parsed as the
    text "undefined" and a boolean as "true" or "false".  The text of a
    number is made of digits, a sign, a point and an exponent mark: it
    holds no colon, hence no scheme, and the constructor throws. *)
Definition URL_of (t : option JsValue) : option string :=
  match t with
  | None => URL_href "undefined"
  | Some (JsString s) => URL_href s
  | Some (JsBoolean b) => URL_href (if b then "true" else "false")
  | Some (JsNumber _) => None
  end.

(** A parse failure throws a TypeError. *)
Definition new_URL_href (t : option JsValue) : Js string :=
  match URL_of t with
  | Some href => ret href
  | None => throw
  end.

(** The callback of [rss.item.map], main.js 128-164. *)
Definition rss_article (item : Rss.item) : Js Article.t :=
  published0 <- Date_now ;;
  updated0 <- Date_now ;;
  let title :=
    match Rss.item_title item with
    | Some node => Some (sanitizeHtml (Some (nullish (hash_text node) (JsString ""))))
    | None => None
    end in
  link <- match Rss.item_link item, Rss.item_guid item with
          | Some node, _ => href <- new_URL_href (hash_text node) ;;
                            ret (Some href)
          | None, Some node => href <- new_URL_href (hash_text node) ;;
                               ret (Some href)
          | None, None => ret None
          end ;;
  let id :=
    match Rss.item_guid item, Rss.item_link item with
    | Some node, _ => hash_text node
    | None, Some node => hash_text node
    | None, None => None
    end in
  let stamp :=
    match Rss.item_pubDate item with
    | Some node =>
        if truthy (hash_text node) then Some (new_Date (hash_text node))
        else None
    | None => None
    end in
  ret {| Article.title := title; Article.link := link; Article.id := id;
         Article.published :=
           match stamp with Some d => d | None => published0 end;
         Article.updated :=
           match stamp with Some d => d | None => updated0 end |}.

(** The [rss] branch of the [try] block, main.js 112-170.  Reading a
    property of [undefined] ([rss.title] without a channel, [rss.item.map]
    without items) throws a TypeError. *)
Definition rss_branch (url : string) (rss : option Rss.channel) : Js unit :=
  match rss with
  | None => throw
  | Some rss =>
      match Rss.title rss with
      | Some node =>
          assign (set_title
                    (Some (sanitizeHtml (Some (nullish (hash_text node) (JsString ""))))))
      | None => ret tt
      end ;;;
      match Rss.description rss with
      | Some node =>
          assign (set_description
                    (Some (sanitizeHtml (Some (nullish (hash_text node) (JsString ""))))))
      | None => ret tt
      end ;;;
      match Rss.link rss with
      | Some node =>
          if truthy (hash_text node)
          then href <- new_URL_href (hash_text node) ;;
               assign (set_id (Some (JsString href))) ;;;
               assign (set_link (Some href))
          else assign (set_id (Some (JsString url))) ;;;
               assign (set_link (Some url))
      | None => assign (set_id (Some (JsString url))) ;;;
                assign (set_link (Some url))
      end ;;;
      match Rss.items rss with
      | Some items =>
          articles <- Array_map rss_article items ;;
          assign (set_articles articles)
      | None => throw
      end ;;;
      match Rss.lastBuildDate rss, Rss.pubDate rss with
      | Some node, _ => assign (set_updated (new_Date (hash_text node)))
      | None, Some node => assign (set_updated (new_Date (hash_text node)))
      | None, None => ret tt
      end
  end.

(** [array.find(link => link["@_rel"] === rel)]. *)
Definition find_rel (rel : string) (nodes : list XmlNode) : option XmlNode :=
  find (fun node => match at_rel node with
                    | Some r => String.eqb r rel
                    | None => false
                    end) nodes.

(** The callback of [atom.entry.map], main.js 195-233.  Line 228 tests
    [entry.published] and line 229 reads [entry.updated["#text"]], which
    throws a TypeError when the entry has no [updated] element. *)
Definition atom_article (entry : Atom.entry) : Js Article.t :=
  published0 <- Date_now ;;
  updated0 <- Date_now ;;
  let title :=
    match Atom.entry_title entry with
    | Some node => Some (sanitizeHtml (hash_text node))
    | None => None
    end in
  link <- match Atom.entry_link entry with
          | Some nodes =>
              let link_node :=
                match find_rel "alternate" nodes with
                | Some node => Some node
                | None => hd_error nodes
                end in
              match link_node with
              | Some node =>
                  href <- new_URL_href
                            match at_href node with
                            | Some h => Some (JsString h)
                            | None => hash_text node
                            end ;;
                  ret (Some href)
              | None => ret None
              end
          | None => ret None
          end ;;
  let id :=
    match Atom.entry_id entry with
    | Some node => hash_text node
    | None => None
    end in
  let published :=
    match Atom.entry_published entry, Atom.entry_updated entry with
    | Some node, _ => new_Date (hash_text node)
    | None, Some node => new_Date (hash_text node)
    | None, None => published0
    end in
  updated <- match Atom.entry_published entry with
             | Some _ =>
                 match Atom.entry_updated entry with
                 | Some node => ret (new_Date (hash_text node))
                 | None => throw
                 end
             | None => ret updated0
             end ;;
  ret {| Article.title := title; Article.link := link; Article.id := id;
         Article.published := published; Article.updated := updated |}.

(** The [feed] branch of the [try] block, main.js 172-237.  [atom.link]
    must be an array holding a [rel="self"] link: [find] is not a function
    of a single link object, and reading ["@_href"] of the [undefined]
    that [find] returns throws. *)
Definition atom_branch (url : string) (atom : Atom.feed) : Js unit :=
  match Atom.title atom with
  | Some node =>
      assign (set_title
                (Some (sanitizeHtml (Some (nullish (hash_text node) (JsString ""))))))
  | None => ret tt
  end ;;;
  match Atom.subtitle atom with
  | Some node =>
      assign (set_description
                (Some (sanitizeHtml (Some (nullish (hash_text node) (JsString ""))))))
  | None => ret tt
  end ;;;
  match Atom.link atom with
  | Some (Atom.ManyLinks nodes) =>
      match find_rel "self" nodes with
      | Some node =>
          href <- new_URL_href
                    (Some (JsString (nullish (at_href node) url))) ;;
          assign (set_link (Some href))
      | None => throw
      end
  | Some (Atom.OneLink _) => throw
  | None => assign (set_link (Some url))
  end ;;;
  match Atom.id atom with
  | Some node => assign (set_id (hash_text node))
  | None => ret tt
  end ;;;
  match Atom.entries atom with
  | Some entries =>
      articles <- Array_map atom_article entries ;;
      assign (set_articles articles)
  | None => throw
  end ;;;
  match Atom.updated atom with
  | Some node =>
      if truthy (hash_text node)
      then assign (set_updated (new_Date (hash_text node)))
      else ret tt
  | None => ret tt
  end.

(** The body of the [try], main.js 109-238. *)
Definition try_body (url : string) (parsed : option XmlFeed) : Js unit :=
  match parsed with
  | None => throw
  | Some xmlFeed =>
      match rss xmlFeed, feed xmlFeed with
      | Some rss, _ => rss_branch url rss
      | None, Some atom => atom_branch url atom
      | None, None => ret tt
      end
  end.

(** The callback of [.map] on the filtered [rawFeeds], main.js 97-244: the
    default feed, the [try] whose [catch] only logs, and [return feed].
    The result is the feed and the number of clock readings made. *)
Definition normalise (url : string) (parsed : option XmlFeed) (n : nat)
  : NewFeed.t * nat :=
  let feed0 :=
    {| NewFeed.title := None; NewFeed.description := None;
       NewFeed.link := None; NewFeed.id := None;
       NewFeed.articles := [];
       NewFeed.updated := TimeValue (wall n) |} in
  let w := snd (try_body url parsed {| ticks := S n; current := feed0 |}) in
  (current w, ticks w).

(** [newFeeds], main.js 95-244: the filter, then the map. *)
Fixpoint newFeeds_from (rawFeeds : list RawText) (n : nat) : list NewFeed.t :=
  match rawFeeds with
  | [] => []
  | NoText :: rest => newFeeds_from rest n
  | Text url parsed :: rest =>
      let '(feed, n') := normalise url parsed n in
      feed :: newFeeds_from rest n'
  end.

(** One cycle on the store: normalise, then merge (main.js 95-272). *)
Definition updateFeeds (feeds : Store) (rawFeeds : list RawText) : Store :=
  merge_all feeds (newFeeds_from rawFeeds 0).

End Normalise.

(** ** The Go program ([package main])

    Go strings are byte strings; a [time.Time] is kept as its instant
    (seconds since the Unix epoch and nanoseconds within the second), its
    Location left out: two times are the same instant when these agree. *)

Module Go.

Record Time : Type := { unix : Z; nsec : Z }.

(** [strings.IndexRune(s, c)] for a rune below [utf8.RuneSelf]: the index
    of the first such byte, or -1. *)
Fixpoint strings_IndexRune (s : string) (c : ascii) : Z :=
  match s with
  | EmptyString => -1
  | String a s' =>
      if Ascii.eqb a c then 0
      else let i := strings_IndexRune s' c in
           if i =? -1 then -1 else i + 1
  end.

(** [s[n:]]. *)
Fixpoint slice_from (n : nat) (s : string) : string :=
  match n, s with
  | O, _ => s
  | S n', String _ s' => slice_from n' s'
  | S _, EmptyString => EmptyString
  end.

(** [unicode.IsSpace] on the UTF-8 bytes at the head of a list: the number
    of bytes of a leading White_Space rune, or 0.  The runes are
    U+0009..U+000D, U+0020, U+0085, U+00A0, U+1680, U+2000..U+200A,
    U+2028, U+2029, U+202F, U+205F and U+3000. *)
Definition space_rune_width (bytes : list N) : nat :=
  match bytes with
  | b1 :: rest =>
      if ((9 <=? b1) && (b1 <=? 13) || (b1 =? 32))%N then 1%nat
      else match rest with
      | b2 :: rest2 =>
          if ((b1 =? 194) && ((b2 =? 133) || (b2 =? 160)))%N then 2%nat
          else match rest2 with
          | b3 :: _ =>
              if ((b1 =? 225) && (b2 =? 154) && (b3 =? 128)
                  || (b1 =? 226) && (b2 =? 128)
                     && ((128 <=? b3) && (b3 <=? 138)
                         || (b3 =? 168) || (b3 =? 169) || (b3 =? 175))
                  || (b1 =? 226) && (b2 =? 129) && (b3 =? 159)
                  || (b1 =? 227) && (b2 =? 128) && (b3 =? 128))%N
              then 3%nat else 0%nat
          | [] => 0%nat
          end
      | [] => 0%nat
      end
  | [] => 0%nat
  end.

(** [strings.TrimLeftFunc(s, unicode.IsSpace)] on bytes. *)
Fixpoint trim_left (fuel : nat) (bytes : list N) : list N :=
  match fuel with
  | O => bytes
  | S fuel' =>
      match space_rune_width bytes with
      | O => bytes
      | w => trim_left fuel' (skipn w bytes)
      end
  end.

(** The same test on the last rune of a list given back to front. *)
Definition space_rune_width_rev (rbytes : list N) : nat :=
  match rbytes with
  | b1 :: _ =>
      if (b1 <? 128)%N then space_rune_width [b1]
      else match rbytes with
      | c2 :: c1 :: rest =>
          if Nat.eqb (space_rune_width [c1; c2]) 2 then 2%nat
          else match rest with
               | c0 :: _ =>
                   if Nat.eqb (space_rune_width [c0; c1; c2]) 3 then 3%nat
                   else 0%nat
               | [] => 0%nat
               end
      | _ => 0%nat
      end
  | [] => 0%nat
  end.

Fixpoint trim_left_rev (fuel : nat) (rbytes : list N) : list N :=
  match fuel with
  | O => rbytes
  | S fuel' =>
      match space_rune_width_rev rbytes with
      | O => rbytes
      | w => trim_left_rev fuel' (skipn w rbytes)
      end
  end.

Definition bytes_of (s : string) : list N :=
  map N_of_ascii (list_ascii_of_string s).

Definition string_of (bytes : list N) : string :=
  string_of_list_ascii (map ascii_of_N bytes).

(** [strings.TrimSpace]: leading and trailing White_Space runes removed. *)
Definition strings_TrimSpace (s : string) : string :=
  let bytes := bytes_of s in
  let left := trim_left (List.length bytes) bytes in
  string_of (rev (trim_left_rev (List.length left) (rev left))).

Module RssItem.
Record t : Type := { Title : string; Link : string; Guid : string;
                     PubDate : string }.
End RssItem.

Module RssLink.
Record t : Type := { Href : string; Rel : string; Chardata : string }.
End RssLink.

Module RssFeed.
Record t : Type := { Title : string; Description : string;
                     LastBuildDate : string; Links : list RssLink.t;
                     Items : list RssItem.t }.
End RssFeed.

Module AtomLink.
Record t : Type := { Href : string; Rel : string; Chardata : string }.
End AtomLink.

Module AtomEntry.
Record t : Type := { Title : string; Id : string; Published : string;
                     Updated : string; Links : list AtomLink.t }.
End AtomEntry.

Module AtomFeed.
Record t : Type := { Title : string; Subtitle : string; Id : string;
                     Links : list AtomLink.t; Updated : string;
                     Entries : list AtomEntry.t }.
End AtomFeed.

Module Entry.
Record t : Type := { Title : string; Id : string; Published : Time;
                     Updated : Time; Link : string }.
End Entry.

Module Feed.
Record t : Type := { Title : string; Description : string; Id : string;
                     Link : string; Updated : Time; Entries : list Entry.t }.
End Feed.

Definition RFC3339 : string := "2006-01-02T15:04:05Z07:00".

(** The zero value of [time.Time]: January 1 of year 1, 00:00:00 UTC. *)
Definition zero_Time : Time := {| unix := -62135596800; nsec := 0 |}.

(** The four layouts of [parseRssDateOrNow], in the order it tries them. *)
Definition rss_layouts : list string :=
  [ "02 Jan 2006 15:04:05 MST";
    "02 Jan 2006 15:04:05 -0700";
    "02 Jan 06 15:04:05 MST";
    "02 Jan 06 15:04:05 -0700" ].

(** What a response to [http.Get(url)] amounts to for the loop of [main]:
    [root] is [startToken.Name.Local] when the token loop ends (empty
    when [Token] fails before a start element), and [rssFeed] and
    [atomFeed] are what [DecodeElement] fills, [None] when it returns an
    error. *)
Inductive Response : Type :=
| GetError
| NotOK
| Body (root : string) (rssFeed : option RssFeed.t)
       (atomFeed : option AtomFeed.t).

Section Program.
(** [time.Parse(layout, value)], [None] when it returns an error. *)
Variable time_Parse : string -> string -> option Time.
(** [time.Now()] at the [k]-th call of a date resolver. *)
Variable time_Now : nat -> Time.

(** Go lines 80-116.  [now] is what [time.Now()] returns during the call. *)
Definition parseRssDateOrNow (now : Time) (raw : string) : Time :=
  if String.eqb raw "" then now
  else
    let firstComma := strings_IndexRune raw "," in
    let raw :=
      if negb (firstComma =? -1)
      then strings_TrimSpace (slice_from (Z.to_nat (firstComma + 1)) raw)
      else raw in
    match time_Parse "02 Jan 2006 15:04:05 MST" raw with
    | Some parsed => parsed
    | None =>
    match time_Parse "02 Jan 2006 15:04:05 -0700" raw with
    | Some parsed => parsed
    | None =>
    match time_Parse "02 Jan 06 15:04:05 MST" raw with
    | Some parsed => parsed
    | None =>
    match time_Parse "02 Jan 06 15:04:05 -0700" raw with
    | Some parsed => parsed
    | None => now
    end end end end.

(** Go lines 118-132. *)
Definition parseAtomDateOrNow (now : Time) (raw : string) : Time :=
  if String.eqb raw "" then now
  else match time_Parse RFC3339 raw with
       | Some parsed => parsed
       | None => now
       end.

(** Go lines 219-228: one [item] of an RSS feed; the call of
    [parseRssDateOrNow] is the [k]-th resolver call. *)
Definition rss_entry (item : RssItem.t) (k : nat) : Entry.t :=
  let published := parseRssDateOrNow (time_Now k) (RssItem.PubDate item) in
  {| Entry.Title := RssItem.Title item;
     Entry.Id := if negb (String.eqb (RssItem.Guid item) "")
                 then RssItem.Guid item else RssItem.Link item;
     Entry.Published := published;
     Entry.Updated := published;
     Entry.Link := RssItem.Link item |}.

(** Go lines 257-268: one [entry] of an Atom feed; its two resolver calls
    are the [k]-th and the next. *)
Definition atom_entry (atomEntry : AtomEntry.t) (k : nat) : Entry.t :=
  {| Entry.Title := AtomEntry.Title atomEntry;
     Entry.Id := AtomEntry.Id atomEntry;
     Entry.Published :=
       parseAtomDateOrNow (time_Now k) (AtomEntry.Published atomEntry);
     Entry.Updated :=
       parseAtomDateOrNow (time_Now (S k)) (AtomEntry.Updated atomEntry);
     Entry.Link :=
       match find (fun link =>
                     String.eqb (AtomLink.Rel link) "alternate"
                     || String.eqb (AtomLink.Rel link) "")
                  (AtomEntry.Links atomEntry) with
       | Some link => AtomLink.Href link
       | None => ""
       end |}.

Fixpoint rss_entries (items : list RssItem.t) (k : nat) : list Entry.t :=
  match items with
  | [] => []
  | item :: rest => rss_entry item k :: rss_entries rest (S k)
  end.

Fixpoint atom_entries (entries : list AtomEntry.t) (k : nat)
  : list Entry.t :=
  match entries with
  | [] => []
  | atomEntry :: rest => atom_entry atomEntry k :: atom_entries rest (S (S k))
  end.

(** Go lines 204-231. *)
Definition feed_of_rss (url : string) (rssFeed : RssFeed.t) (k : nat)
  : Feed.t :=
  let link :=
    match find (fun link => String.eqb (RssLink.Rel link) "self")
               (RssFeed.Links rssFeed) with
    | Some link => RssLink.Href link
    | None => url
    end in
  {| Feed.Title := RssFeed.Title rssFeed;
     Feed.Description := RssFeed.Description rssFeed;
     Feed.Id := link;
     Feed.Link := link;
     Feed.Updated :=
       parseRssDateOrNow (time_Now k) (RssFeed.LastBuildDate rssFeed);
     Feed.Entries := rss_entries (RssFeed.Items rssFeed) (S k) |}.

(** Go lines 243-271; [feed.Updated] is not assigned. *)
Definition feed_of_atom (url : string) (atomFeed : AtomFeed.t) (k : nat)
  : Feed.t :=
  {| Feed.Title := AtomFeed.Title atomFeed;
     Feed.Description := AtomFeed.Subtitle atomFeed;
     Feed.Id := AtomFeed.Id atomFeed;
     Feed.Link :=
       match find (fun link => String.eqb (AtomLink.Rel link) "self")
                  (AtomFeed.Links atomFeed) with
       | Some link => AtomLink.Href link
       | None => url
       end;
     Feed.Updated := zero_Time;
     Feed.Entries := atom_entries (AtomFeed.Entries atomFeed) k |}.

(** The body of [for _, url := range urls], Go lines 166-280: the feeds
    collected so far and the resolver calls made so far, after one URL. *)
Definition ingest (feeds : list Feed.t) (k : nat) (url : string)
  (resp : Response) : list Feed.t * nat :=
  match resp with
  | GetError => (feeds, k)
  | NotOK => (feeds, k)
  | Body root rssFeed atomFeed =>
      if String.eqb root "rss" then
        match rssFeed with
        | None => (feeds, k)
        | Some rssFeed =>
            (feeds ++ [feed_of_rss url rssFeed k],
             (S k + List.length (RssFeed.Items rssFeed))%nat)
        end
      else if String.eqb root "feed" then
        match atomFeed with
        | None => (feeds, k)
        | Some atomFeed =>
            (feeds ++ [feed_of_atom url atomFeed k],
             (k + 2 * List.length (AtomFeed.Entries atomFeed))%nat)
        end
      else (feeds, k)
  end.

End Program.

End Go.

(** ** Calendar arithmetic and text scanning, shared by the instances *)

Definition is_digit (c : ascii) : bool :=
  let n := N_of_ascii c in ((48 <=? n) && (n <=? 57))%N.

Definition digit_val (c : ascii) : Z := Z.of_N (N_of_ascii c) - 48.

Definition is_alpha (c : ascii) : bool :=
  let n := N_of_ascii c in
  ((65 <=? n) && (n <=? 90) || (97 <=? n) && (n <=? 122))%N.

Definition is_upper (c : ascii) : bool :=
  let n := N_of_ascii c in ((65 <=? n) && (n <=? 90))%N.

Definition isLeap (year : Z) : bool :=
  (year mod 4 =? 0) && (negb (year mod 100 =? 0) || (year mod 400 =? 0)).

Definition daysIn (month year : Z) : Z :=
  if month =? 2 then (if isLeap year then 29 else 28)
  else if (month =? 4) || (month =? 6) || (month =? 9) || (month =? 11)
       then 30 else 31.

(** Days from 1970-01-01 to the given day of the proleptic Gregorian
    calendar. *)
Definition days_from_civil (year month day : Z) : Z :=
  let y := if month <=? 2 then year - 1 else year in
  let era := y / 400 in
  let yoe := y - era * 400 in
  let mp := if month <=? 2 then month + 9 else month - 3 in
  let doy := (153 * mp + 2) / 5 + day - 1 in
  let doe := yoe * 365 + yoe / 4 - yoe / 100 + doy in
  era * 146097 + doe - 719468.

Definition unix_of_civil (year month day hour min sec : Z) : Z :=
  days_from_civil year month day * 86400 + hour * 3600 + min * 60 + sec.

(** [n] decimal digits at the head of a text. *)
Fixpoint take_digits (n : nat) (acc : Z) (s : string) : option (Z * string) :=
  match n with
  | O => Some (acc, s)
  | S n' =>
      match s with
      | String c s' =>
          if is_digit c then take_digits n' (acc * 10 + digit_val c) s'
          else None
      | EmptyString => None
      end
  end.

Definition expect (c : ascii) (s : string) : option string :=
  match s with
  | String a s' => if Ascii.eqb a c then Some s' else None
  | EmptyString => None
  end.

(** ** An instance of [time.Parse], used by the worked instances only

    Go's general parser ([time/format.go]) on the five layouts the program
    passes to it, element by element: two-digit day [02], month name
    [Jan] or two-digit month [01], year [2006] or [06], hour [15], minute
    [04], second [05] with the fraction the parser tolerates after it,
    and the zone as an abbreviation [MST], a numeric offset [-0700] or
    [Z07:00].  [local name unix] is [Local]'s offset for a zone
    abbreviation, [None] when [Local] does not know it: the time is then
    taken as written, with offset zero. *)

Module GoTime.

Notation "x <-? o ;; k" :=
  (match o with Some x => k | None => None end)
  (at level 61, o at next level, right associativity, only parsing).

Inductive zone : Type :=
| ZoneUTC
| ZoneOffset (seconds : Z)
| ZoneName (name : string).

Fixpoint cutspace (s : string) : string :=
  match s with
  | String c s' => if Ascii.eqb c " " then cutspace s' else s
  | EmptyString => s
  end.

(** [skip(value, prefix)] for a one-byte literal of the layout: a space
    stands for any run of spaces, also for none at the end of the
    text. *)
Definition skip (value : string) (c : ascii) : option string :=
  if Ascii.eqb c " " then
    match value with
    | String a _ => if Ascii.eqb a " " then Some (cutspace value) else None
    | EmptyString => Some value
    end
  else expect c value.

Definition getnum (s : string) (fixed : bool) : option (Z * string) :=
  match s with
  | String c0 s1 =>
      if is_digit c0 then
        match s1 with
        | String c1 s2 =>
            if is_digit c1 then Some (digit_val c0 * 10 + digit_val c1, s2)
            else if fixed then None else Some (digit_val c0, s1)
        | EmptyString => if fixed then None else Some (digit_val c0, s1)
        end
      else None
  | EmptyString => None
  end.

(** [leadingInt]: the digits at the head, or an error when their value
    passes 2^63. *)
Fixpoint leadingInt (x : Z) (s : string) : option (Z * string) :=
  match s with
  | String c s' =>
      if is_digit c then
        if 2 ^ 63 / 10 <? x then None
        else let x' := x * 10 + digit_val c in
             if 2 ^ 63 <? x' then None else leadingInt x' s'
      else Some (x, s)
  | EmptyString => Some (x, s)
  end.

(** [atoi]: an optional sign, then digits to the end. *)
Definition atoi (s : string) : option Z :=
  let '(neg, digits) :=
    match s with
    | String c s' =>
        if Ascii.eqb c "-" then (true, s')
        else if Ascii.eqb c "+" then (false, s') else (false, s)
    | EmptyString => (false, s)
    end in
  match leadingInt 0 digits with
  | Some (x, EmptyString) => Some (if neg then - x else x)
  | _ => None
  end.

Definition take (n : nat) (s : string) : string := substring 0 n s.

Definition lower (c : ascii) : N := N.lor (N_of_ascii c) 32.

(** [match(s1, s2)]: equal up to the case of letters. *)
Fixpoint match_fold (s1 s2 : string) : bool :=
  match s1, s2 with
  | String c1 r1, String c2 r2 =>
      (Ascii.eqb c1 c2
       || (lower c1 =? lower c2)%N && (97 <=? lower c1)%N
          && (lower c1 <=? 122)%N)
      && match_fold r1 r2
  | EmptyString, EmptyString => true
  | _, _ => false
  end.

Definition shortMonthNames : list string :=
  ["Jan"; "Feb"; "Mar"; "Apr"; "May"; "Jun";
   "Jul"; "Aug"; "Sep"; "Oct"; "Nov"; "Dec"].

(** [lookup(shortMonthNames, value)], counted from 1. *)
Fixpoint lookup_month (tab : list string) (i : Z) (value : string)
  : option (Z * string) :=
  match tab with
  | [] => None
  | v :: tab' =>
      if (String.length v <=? String.length value)%nat
         && match_fold (take (String.length v) value) v
      then Some (i, Go.slice_from (String.length v) value)
      else lookup_month tab' (i + 1) value
  end.

Definition stdYear (value : string) : option (Z * string) :=
  if (String.length value <? 2)%nat then None
  else year <-? atoi (take 2 value) ;;
       Some (if 69 <=? year then year + 1900 else year + 2000,
             Go.slice_from 2 value).

Definition stdLongYear (value : string) : option (Z * string) :=
  match value with
  | String c _ =>
      if (String.length value <? 4)%nat || negb (is_digit c) then None
      else year <-? atoi (take 4 value) ;;
           Some (year, Go.slice_from 4 value)
  | EmptyString => None
  end.

Definition stdZeroMonth (value : string) : option (Z * string) :=
  r <-? getnum value true ;;
  if (fst r <=? 0) || (12 <? fst r) then None else Some r.

Definition stdHour (value : string) : option (Z * string) :=
  r <-? getnum value false ;;
  if 24 <=? fst r then None else Some r.

Definition stdZeroMinute (value : string) : option (Z * string) :=
  r <-? getnum value true ;;
  if 60 <=? fst r then None else Some r.

Fixpoint digits_prefix (s : string) : string :=
  match s with
  | String c s' => if is_digit c then String c (digits_prefix s') else ""
  | EmptyString => ""
  end.

(** [stdZeroSecond], with the fraction accepted after the seconds when
    the layout has none: seconds, nanoseconds, and the rest. *)
Definition stdZeroSecond (value : string) : option (Z * Z * string) :=
  r <-? getnum value true ;;
  let '(sec, value) := r in
  if 60 <=? sec then None
  else
    match value with
    | String sep (String d _ as frac) =>
        if (Ascii.eqb sep "." || Ascii.eqb sep ",") && is_digit d then
          let digits := digits_prefix frac in
          let used := take 9 digits in
          ns <-? atoi used ;;
          Some (sec, ns * 10 ^ (9 - Z.of_nat (String.length used)),
                Go.slice_from (String.length digits) frac)
        else Some (sec, 0, value)
    | _ => Some (sec, 0, value)
    end.

(** [parseSignedOffset]: the length of a sign and an hour up to 23, or 0. *)
Definition parseSignedOffset (value : string) : nat :=
  match value with
  | String sign rest =>
      if Ascii.eqb sign "-" || Ascii.eqb sign "+" then
        match leadingInt 0 rest with
        | Some (x, rem) =>
            if (String.length rem =? String.length rest)%nat then 0%nat
            else if 23 <? x then 0%nat
            else (String.length value - String.length rem)%nat
        | None => 0%nat
        end
      else 0%nat
  | EmptyString => 0%nat
  end.

Definition parseGMT (value : string) : nat :=
  let rest := Go.slice_from 3 value in
  if (String.length rest =? 0)%nat then 3%nat
  else (3 + parseSignedOffset rest)%nat.

Fixpoint count_upper (fuel : nat) (s : string) : nat :=
  match fuel, s with
  | S fuel', String c s' =>
      if is_upper c then S (count_upper fuel' s') else 0%nat
  | _, _ => 0%nat
  end.

Definition byte_at (n : nat) (s : string) : ascii :=
  match get n s with Some c => c | None => zero end.

(** [parseTimeZone]: the length of the zone abbreviation at the head. *)
Definition parseTimeZone (value : string) : option nat :=
  if (String.length value <? 3)%nat then None
  else if (4 <=? String.length value)%nat
          && (String.eqb (take 4 value) "ChST"
              || String.eqb (take 4 value) "MeST")
  then Some 4%nat
  else if String.eqb (take 3 value) "GMT" then Some (parseGMT value)
  else if Ascii.eqb (byte_at 0 value) "+" || Ascii.eqb (byte_at 0 value) "-"
  then match parseSignedOffset value with
       | O => None
       | n => Some n
       end
  else
    match count_upper 6 value with
    | 5%nat => if Ascii.eqb (byte_at 4 value) "T" then Some 5%nat else None
    | 4%nat => if Ascii.eqb (byte_at 3 value) "T"
                  || String.eqb (take 4 value) "WITA"
               then Some 4%nat else None
    | 3%nat => Some 3%nat
    | _ => None
    end.

Definition stdTZ (value : string) : option (zone * string) :=
  if (3 <=? String.length value)%nat && String.eqb (take 3 value) "UTC"
  then Some (ZoneUTC, Go.slice_from 3 value)
  else n <-? parseTimeZone value ;;
       Some (ZoneName (take n value), Go.slice_from n value).

(** The sign, hour and minute of a numeric zone, once cut out. *)
Definition zone_offset (sign : ascii) (hour min : string) : option zone :=
  hr <-? getnum hour true ;;
  mm <-? getnum min true ;;
  if (24 <? fst hr) || (60 <? fst mm) then None
  else
    let offset := (fst hr * 60 + fst mm) * 60 in
    if Ascii.eqb sign "+" then Some (ZoneOffset offset)
    else if Ascii.eqb sign "-" then Some (ZoneOffset (- offset))
    else None.

Definition stdNumTZ (value : string) : option (zone * string) :=
  if (String.length value <? 5)%nat then None
  else z <-? zone_offset (byte_at 0 value) (substring 1 2 value)
                         (substring 3 2 value) ;;
       Some (z, Go.slice_from 5 value).

Definition stdISO8601ColonTZ (value : string) : option (zone * string) :=
  match value with
  | String c rest =>
      if Ascii.eqb c "Z" then Some (ZoneUTC, rest)
      else if (String.length value <? 6)%nat then None
      else if negb (Ascii.eqb (byte_at 3 value) ":") then None
      else z <-? zone_offset c (substring 1 2 value) (substring 4 2 value) ;;
           Some (z, Go.slice_from 6 value)
  | EmptyString => None
  end.

Section Local.
Variable local : string -> Z -> option Z.

(** The end of [parse]: no text may be left, the day must exist, and the
    zone fixes the instant. *)
Definition finish (year month day hour min sec ns : Z) (z : zone)
  (value : string) : option Go.Time :=
  if negb (String.eqb value "") then None
  else if (day <? 1) || (daysIn month year <? day) then None
  else
    let u := unix_of_civil year month day hour min sec in
    Some {| Go.unix :=
              match z with
              | ZoneUTC => u
              | ZoneOffset offset => u - offset
              | ZoneName name =>
                  match local name u with
                  | Some offset => u - offset
                  | None => u
                  end
              end;
            Go.nsec := ns |}.

(** ["15:04:05"], then the zone element after the literal [sep] if any. *)
Definition clock_and_zone (sep : option ascii)
  (tz : string -> option (zone * string))
  (year month day : Z) (value : string) : option Go.Time :=
  h <-? stdHour value ;;
  value <-? skip (snd h) ":" ;;
  m <-? stdZeroMinute value ;;
  value <-? skip (snd m) ":" ;;
  s <-? stdZeroSecond value ;;
  let '(sec, ns, value) := s in
  value <-? match sep with Some c => skip value c | None => Some value end ;;
  z <-? tz value ;;
  finish year month day (fst h) (fst m) sec ns (fst z) (snd z).

(** ["02 Jan " year " 15:04:05 " zone]. *)
Definition rfc822 (year : string -> option (Z * string))
  (tz : string -> option (zone * string)) (value : string)
  : option Go.Time :=
  d <-? getnum value true ;;
  value <-? skip (snd d) " " ;;
  mo <-? lookup_month shortMonthNames 1 value ;;
  value <-? skip (snd mo) " " ;;
  y <-? year value ;;
  value <-? skip (snd y) " " ;;
  clock_and_zone (Some " "%char) tz (fst y) (fst mo) (fst d) value.

(** ["2006-01-02T15:04:05Z07:00"]. *)
Definition rfc3339 (value : string) : option Go.Time :=
  y <-? stdLongYear value ;;
  value <-? skip (snd y) "-" ;;
  mo <-? stdZeroMonth value ;;
  value <-? skip (snd mo) "-" ;;
  d <-? getnum value true ;;
  value <-? skip (snd d) "T" ;;
  clock_and_zone None stdISO8601ColonTZ (fst y) (fst mo) (fst d) value.

Definition Parse (layout value : string) : option Go.Time :=
  if String.eqb layout "02 Jan 2006 15:04:05 MST"
  then rfc822 stdLongYear stdTZ value
  else if String.eqb layout "02 Jan 2006 15:04:05 -0700"
  then rfc822 stdLongYear stdNumTZ value
  else if String.eqb layout "02 Jan 06 15:04:05 MST"
  then rfc822 stdYear stdTZ value
  else if String.eqb layout "02 Jan 06 15:04:05 -0700"
  then rfc822 stdYear stdNumTZ value
  else if String.eqb layout Go.RFC3339
  then rfc3339 value
  else None.

End Local.

(** [Local] is UTC: it knows no zone abbreviation. *)
Definition utc_local (name : string) (unix : Z) : option Z := None.

End GoTime.

(** ** Instances of the JavaScript parameters, used by the worked
    instances only

    [href_of_absolute] is the [URL] constructor without a base as far as
    its first step goes: a text that does not begin with a scheme (a
    letter, then letters, digits, [+], [-] or [.], then a colon) is
    rejected; any other text is taken to be a URL already in serialised
    form.  [parse_utc_stamp] is [Date.parse] on the text [toISOString]
    writes without a fraction, [YYYY-MM-DDTHH:mm:ssZ], and an Invalid Date
    elsewhere.  [sanitizeHtml] is the identity on a string, as it is on a
    text without markup; the worked instances hand it strings only. *)

Fixpoint scheme_rest (s : string) : bool :=
  match s with
  | String c s' =>
      if Ascii.eqb c ":" then true
      else if is_alpha c || is_digit c || Ascii.eqb c "+" || Ascii.eqb c "-"
              || Ascii.eqb c "."
           then scheme_rest s' else false
  | EmptyString => false
  end.

Definition href_of_absolute (s : string) : option string :=
  match s with
  | String c s' => if is_alpha c && scheme_rest s' then Some s else None
  | EmptyString => None
  end.

Definition parse_utc_stamp (s : string) : Date :=
  match take_digits 4 0 s with
  | Some (year, s) =>
  match expect "-" s with Some s =>
  match take_digits 2 0 s with Some (month, s) =>
  match expect "-" s with Some s =>
  match take_digits 2 0 s with Some (day, s) =>
  match expect "T" s with Some s =>
  match take_digits 2 0 s with Some (hour, s) =>
  match expect ":" s with Some s =>
  match take_digits 2 0 s with Some (min, s) =>
  match expect ":" s with Some s =>
  match take_digits 2 0 s with Some (sec, s) =>
    if String.eqb s "Z" && (1 <=? month) && (month <=? 12) && (1 <=? day)
       && (day <=? daysIn month year) && (hour <? 24) && (min <? 60)
       && (sec <? 60)
    then TimeValue (unix_of_civil year month day hour min sec * 1000)
    else InvalidDate
  | None => InvalidDate end | None => InvalidDate end
  | None => InvalidDate end | None => InvalidDate end
  | None => InvalidDate end | None => InvalidDate end
  | None => InvalidDate end | None => InvalidDate end
  | None => InvalidDate end | None => InvalidDate end
  | None => InvalidDate
  end.

Definition plain_host : Host :=
  {| sanitizeHtml := fun t => match t with
                               | Some (JsString s) => s
                               | _ => EmptyString
                               end;
     URL_href := href_of_absolute;
     Date_parse := parse_utc_stamp;
     wall := fun n => 1700000000000 + Z.of_nat n |}.

(** ** Predicates used by the statements *)

(** *** What the RSS callback emits, item by item *)

Section Emitted.
Context {host : Host}.

(** The text the callback hands to [URL]: that of [link], else of
    [guid]. *)
Definition rss_link_text (item : Rss.item) : option (option JsValue) :=
  match Rss.item_link item, Rss.item_guid item with
  | Some node, _ => Some (hash_text node)
  | None, Some node => Some (hash_text node)
  | None, None => None
  end.

(** The article's link: the parsed URL, unset without link and guid. *)
Definition rss_link (item : Rss.item) : option string :=
  match rss_link_text item with
  | Some t => URL_of t
  | None => None
  end.

(** No URL of the item fails to parse. *)
Definition rss_link_parses (item : Rss.item) : bool :=
  match rss_link_text item with
  | Some t =>
      match URL_of t with
      | Some _ => true
      | None => false
      end
  | None => true
  end.

(** The article's id: the text of [guid], else of [link], else unset. *)
Definition rss_id (item : Rss.item) : Key :=
  match Rss.item_guid item, Rss.item_link item with
  | Some node, _ => hash_text node
  | None, Some node => hash_text node
  | None, None => None
  end.

(** The article of an item whose callback starts at clock reading [n]. *)
Definition rss_emitted (item : Rss.item) (n : nat) : Article.t :=
  let stamp :=
    match Rss.item_pubDate item with
    | Some node =>
        if truthy (hash_text node) then Some (new_Date (hash_text node))
        else None
    | None => None
    end in
  {| Article.title :=
       match Rss.item_title item with
       | Some node => Some (sanitizeHtml (Some (nullish (hash_text node) (JsString ""))))
       | None => None
       end;
     Article.link := rss_link item;
     Article.id := rss_id item;
     Article.published :=
       match stamp with Some d => d | None => TimeValue (wall n) end;
     Article.updated :=
       match stamp with Some d => d | None => TimeValue (wall (S n)) end |}.

(** One article per item, in order; each callback reads the clock twice. *)
Fixpoint rss_emitted_all (items : list Rss.item) (n : nat)
  : list Article.t :=
  match items with
  | [] => []
  | item :: rest => rss_emitted item n :: rss_emitted_all rest (S (S n))
  end.

(** The clock readings made when the map over [items] ends or throws. *)
Fixpoint rss_ticks (items : list Rss.item) (n : nat) : nat :=
  match items with
  | [] => n
  | item :: rest =>
      if rss_link_parses item then rss_ticks rest (S (S n)) else S (S n)
  end.

(** The channel's own link, when its text is truthy, parses. *)
Definition channel_link_parses (ch : Rss.channel) : bool :=
  match Rss.link ch with
  | Some node =>
      if truthy (hash_text node)
      then match URL_of (hash_text node) with
           | Some _ => true
           | None => false
           end
      else true
  | None => true
  end.

(** *** The Atom callback's link *)

Definition atom_link_text (entry : Atom.entry) : option (option JsValue) :=
  match Atom.entry_link entry with
  | Some nodes =>
      match match find_rel "alternate" nodes with
            | Some node => Some node
            | None => hd_error nodes
            end with
      | Some node => Some match at_href node with
                          | Some h => Some (JsString h)
                          | None => hash_text node
                          end
      | None => None
      end
  | None => None
  end.

Definition atom_link_parses (entry : Atom.entry) : bool :=
  match atom_link_text entry with
  | Some t =>
      match URL_of t with
      | Some _ => true
      | None => false
      end
  | None => true
  end.

End Emitted.

(** Two more readings of the clock. *)
Definition tick2 (w : World) : World :=
  {| ticks := S (S (ticks w)); current := current w |}.

(** *** Documents for the worked instances *)

Definition text_node (s : string) : XmlNode :=
  {| hash_text := Some (JsString s); at_rel := None; at_href := None |}.

Definition rss_item_of (link : option string) : Rss.item :=
  {| Rss.item_title := Some (text_node "Post");
     Rss.item_link := option_map text_node link;
     Rss.item_guid := None;
     Rss.item_pubDate := None |}.

(** An item with a link and a [pubDate]. *)
Definition rss_item_dated (pubDate : string) : Rss.item :=
  {| Rss.item_title := Some (text_node "Post");
     Rss.item_link := Some (text_node "https://x/1");
     Rss.item_guid := None;
     Rss.item_pubDate := Some (text_node pubDate) |}.

Definition rss_doc (items : list Rss.item) : XmlFeed :=
  {| rss := Some (Some {| Rss.title := Some (text_node "Blog");
                          Rss.description := None;
                          Rss.link := Some (text_node "https://x/");
                          Rss.items := Some items;
                          Rss.lastBuildDate := None;
                          Rss.pubDate := None |});
     feed := None |}.

(** Two items: the first is sound, the link of the second is no URL. *)
Definition rss_doc_one_bad_link : XmlFeed :=
  rss_doc [rss_item_of (Some "https://x/1"); rss_item_of (Some "not a url")].

(** One item with neither [link] nor [guid]. *)
Definition rss_doc_anonymous_item : XmlFeed :=
  rss_doc [rss_item_of None].

(** Two sound items. *)
Definition rss_doc_sound : XmlFeed :=
  rss_doc [rss_item_of (Some "https://x/1"); rss_item_of (Some "https://x/2")].

(** A channel whose [link] element holds the text 0, which the parser
    stores as a number. *)
Definition rss_doc_link_zero : XmlFeed :=
  {| rss := Some (Some {| Rss.title := Some (text_node "Blog");
                          Rss.description := None;
                          Rss.link :=
                            Some {| hash_text :=
                                      Some (JsNumber (Number_of_Z 0));
                                    at_rel := None; at_href := None |};
                          Rss.items := Some [];
                          Rss.lastBuildDate := None;
                          Rss.pubDate := None |});
     feed := None |}.

(** A document whose root element is neither [rss] nor [feed]. *)
Definition other_root : XmlFeed := {| rss := None; feed := None |}.

Definition atom_entry_of (published updated : option string) : Atom.entry :=
  {| Atom.entry_title := Some (text_node "Post");
     Atom.entry_link := None;
     Atom.entry_id := Some (text_node "urn:post:1");
     Atom.entry_published := option_map text_node published;
     Atom.entry_updated := option_map text_node updated |}.

Definition atom_doc (entries : list Atom.entry) : XmlFeed :=
  {| rss := None;
     feed := Some {| Atom.title := Some (text_node "Blog");
                     Atom.subtitle := None;
                     Atom.link := None;
                     Atom.id := Some (text_node "urn:blog");
                     Atom.entries := Some entries;
                     Atom.updated := None |} |}.

Definition go_atom_entry_of (published updated : string) : Go.AtomEntry.t :=
  {| Go.AtomEntry.Title := "Post"; Go.AtomEntry.Id := "urn:post:1";
     Go.AtomEntry.Published := published; Go.AtomEntry.Updated := updated;
     Go.AtomEntry.Links := [] |}.

(** A clock for the Go instances: one second per resolver call, from
    2023-11-14T22:13:20Z. *)
Definition go_clock (k : nat) : Go.Time :=
  {| Go.unix := 1700000000 + Z.of_nat k; Go.nsec := 0 |}.

(** *** The RSS date resolver as the specification words it *)

(** The text after the first comma, if there is a comma. *)
Fixpoint after_first_comma (s : string) : option string :=
  match s with
  | EmptyString => None
  | String c s' => if Ascii.eqb c "," then Some s' else after_first_comma s'
  end.

(** Step (b): the prefix up to and including the first comma is dropped,
    and the rest trimmed; a text without a comma is left as it is. *)
Definition strip_weekday (raw : string) : string :=
  match after_first_comma raw with
  | Some rest => Go.strings_TrimSpace rest
  | None => raw
  end.

(** Step (c): the patterns in order, the first successful parse. *)
Fixpoint first_success (parse : string -> string -> option Go.Time)
  (layouts : list string) (s : string) : option Go.Time :=
  match layouts with
  | [] => None
  | layout :: rest =>
      match parse layout s with
      | Some t => Some t
      | None => first_success parse rest s
      end
  end.

(** Steps (a) to (d). *)
Definition resolve_rss_date (parse : string -> string -> option Go.Time)
  (now : Go.Time) (raw : string) : Go.Time :=
  if String.eqb raw "" then now
  else match first_success parse Go.rss_layouts (strip_weekday raw) with
       | Some t => t
       | None => now
       end.

(** The four example texts of the specification, and the instant
    2006-01-02T15:04:05Z. *)
Definition rss_date_examples : list string :=
  [ "Mon, 02 Jan 2006 15:04:05 GMT";
    "02 Jan 2006 15:04:05 +0000";
    "02 Jan 06 15:04:05 GMT";
    "02 Jan 06 15:04:05 +0000" ].

Definition reference_instant : Go.Time :=
  {| Go.unix := 1136214245; Go.nsec := 0 |}.

(** [time.Parse] reads [s] as the instant [t]: one of the four layouts
    accepts it, and each one that does gives [t]. *)
Definition reads_as (parse : string -> string -> option Go.Time)
  (s : string) (t : Go.Time) : Prop :=
  (exists layout, In layout Go.rss_layouts /\ parse layout s <> None) /\
  (forall layout t', In layout Go.rss_layouts ->
                     parse layout s = Some t' -> t' = t).

(** After [b] was offered where [a] stood, [held] is what stands there:
    [b] if [b.updated > a.updated], and [a] otherwise. *)
Definition holds_newer (held a b : Article.t) : Prop :=
  (Date_gt (Article.updated b) (Article.updated a) = true -> held = b) /\
  (Date_gt (Article.updated b) (Article.updated a) = false -> held = a) /\
  (a <> b ->
   (held = b <-> Date_gt (Article.updated b) (Article.updated a) = true)).

(** Every key is the id of the record bound to it. *)
Definition articles_coherent (articles : JsMap Article.t) : bool :=
  forallb (fun kv => key_eqb (fst kv) (Article.id (snd kv))) articles.

Definition store_coherent (feeds : Store) : bool :=
  forallb (fun kv => key_eqb (fst kv) (Feed.id (snd kv))
                     && articles_coherent (Feed.articles (snd kv))) feeds.

(** Every [Map] of the store binds each key once. *)
Definition store_wf (feeds : Store) : Prop :=
  Map_wf feeds /\
  Forall (fun kv => Map_wf (Feed.articles (snd kv))) feeds.

Definition valid_date (d : Date) : Prop := exists ms, d = TimeValue ms.

(** Every date of the store is valid, and no article was updated after
    it was published. *)
Definition store_unedited (feeds : Store) : Prop :=
  Forall (fun kv =>
            valid_date (Feed.updated (snd kv)) /\
            Forall (fun xa =>
                      valid_date (Article.published (snd xa)) /\
                      Article.updated (snd xa) = Article.published (snd xa))
                   (Feed.articles (snd kv))) feeds.

(** ** A small store and an incoming feed, for the worked instances *)

Definition post_v1 : Article.t :=
  {| Article.title := Some "Post"; Article.link := Some "https://x/1";
     Article.id := Some (JsString "https://x/1");
     Article.published := TimeValue 1000; Article.updated := TimeValue 1000 |}.

Definition post_v2 : Article.t :=
  {| Article.title := Some "Post (edited)"; Article.link := Some "https://x/1";
     Article.id := Some (JsString "https://x/1");
     Article.published := TimeValue 1000; Article.updated := TimeValue 2000 |}.

Definition note_v1 : Article.t :=
  {| Article.title := Some "Note"; Article.link := None;
     Article.id := None;
     Article.published := TimeValue 1500; Article.updated := TimeValue 1500 |}.

Definition blog : Feed.t :=
  {| Feed.title := Some "Blog"; Feed.description := Some "About x";
     Feed.link := Some "https://x/"; Feed.id := Some (JsString "https://x/");
     Feed.articles := [(Some (JsString "https://x/1"), post_v1)];
     Feed.updated := TimeValue 1000 |}.

Definition blog_store : Store := [(Some (JsString "https://x/"), blog)].

Definition blog_fetched : NewFeed.t :=
  {| NewFeed.title := Some "Blog, renamed"; NewFeed.description := None;
     NewFeed.link := Some "https://x/"; NewFeed.id := Some (JsString "https://x/");
     NewFeed.articles := [note_v1; post_v2];
     NewFeed.updated := TimeValue 3000 |}.

(** A store whose one article was edited after it was published. *)
Definition edited_store : Store :=
  [(Some (JsString "https://x/"),
    Feed.with_articles blog [(Some (JsString "https://x/1"), post_v2)])].

(** ** Further predicates on the store *)

(** Every article of [newFeed] is settled in the feed the store binds
    under [newFeed.id]: merging [newFeed] would change nothing. *)
Definition feed_settled (feeds : Store) (newFeed : NewFeed.t) : Prop :=
  exists feed,
    Map_get (NewFeed.id newFeed) feeds = Some feed /\
    forall b, In b (NewFeed.articles newFeed) ->
              settled (Feed.articles feed) b.

(** The element of [rawFeeds] passes the filter of line 96. *)
Definition is_Text (raw : RawText) : bool :=
  match raw with
  | NoText => false
  | Text _ _ => true
  end.

(** *** What the Atom callback emits, entry by entry *)

Section AtomEmitted.
Context {host : Host}.

(** The callback returns: the link parses, and the entry does not have a
    [published] element without an [updated] one. *)
Definition atom_entry_ok (entry : Atom.entry) : bool :=
  atom_link_parses entry
  && match Atom.entry_published entry, Atom.entry_updated entry with
     | Some _, None => false
     | _, _ => true
     end.

(** The article of an entry whose callback starts at clock reading [n]
    and returns. *)
Definition atom_emitted (entry : Atom.entry) (n : nat) : Article.t :=
  {| Article.title :=
       match Atom.entry_title entry with
       | Some node => Some (sanitizeHtml (hash_text node))
       | None => None
       end;
     Article.link :=
       match atom_link_text entry with
       | Some t => URL_of t
       | None => None
       end;
     Article.id :=
       match Atom.entry_id entry with
       | Some node => hash_text node
       | None => None
       end;
     Article.published :=
       match Atom.entry_published entry, Atom.entry_updated entry with
       | Some node, _ => new_Date (hash_text node)
       | None, Some node => new_Date (hash_text node)
       | None, None => TimeValue (wall n)
       end;
     Article.updated :=
       match Atom.entry_published entry, Atom.entry_updated entry with
       | Some _, Some node => new_Date (hash_text node)
       | _, _ => TimeValue (wall (S n))
       end |}.

Fixpoint atom_emitted_all (entries : list Atom.entry) (n : nat)
  : list Article.t :=
  match entries with
  | [] => []
  | entry :: rest => atom_emitted entry n :: atom_emitted_all rest (S (S n))
  end.

Fixpoint atom_ticks (entries : list Atom.entry) (n : nat) : nat :=
  match entries with
  | [] => n
  | entry :: rest =>
      if atom_entry_ok entry then atom_ticks rest (S (S n)) else S (S n)
  end.

(** The feed's own link is resolved without a throw: there is no [link]
    element, or [atom.link] is an array with a [rel="self"] node whose
    href (the source URL when it has none) parses. *)
Definition atom_feed_link_ok (url : string) (atom : Atom.feed) : bool :=
  match Atom.link atom with
  | Some (Atom.ManyLinks nodes) =>
      match find_rel "self" nodes with
      | Some node =>
          match URL_href (nullish (at_href node) url) with
          | Some _ => true
          | None => false
          end
      | None => false
      end
  | Some (Atom.OneLink _) => false
  | None => true
  end.

End AtomEmitted.

(** The text the Atom callback makes a URL of: the node's href, else
    its text. *)
Definition link_text_of (node : XmlNode) : option JsValue :=
  match at_href node with
  | Some h => Some (JsString h)
  | None => hash_text node
  end.

(** ** The loop of the Go program over its URLs *)

(** [for _, url := range urls], Go lines 164-280, on the responses the
    URLs get: the feeds collected and the resolver calls made. *)
Definition Go_main_loop (time_Parse : string -> string -> option Go.Time)
  (time_Now : nat -> Go.Time) (fetched : list (string * Go.Response))
  : list Go.Feed.t * nat :=
  fold_left (fun state fetch =>
               Go.ingest time_Parse time_Now (fst state) (snd state)
                         (fst fetch) (snd fetch))
            fetched ([], 0%nat).

(** The response is one the loop turns into a feed: status 200, root
    [rss] or [feed], decoded without error. *)
Definition Go_yields_feed (resp : Go.Response) : bool :=
  match resp with
  | Go.Body root rssFeed atomFeed =>
      if String.eqb root "rss"
      then match rssFeed with Some _ => true | None => false end
      else if String.eqb root "feed"
      then match atomFeed with Some _ => true | None => false end
      else false
  | _ => false
  end.

(** ** The reader page (main.js 295-434)

    The page reads the file the back end wrote, keeps the set of read
    article ids in [localStorage], and lists articles or feeds that
    match the search box.  The model stops where the DOM begins: it gives
    the items in the order they are rendered.  [Array.prototype.sort] is
    a stable sort that reads a NaN from the comparator as 0; for a
    consistent comparator its result is that of the insertion sort
    below. *)

Module Page.

(** An element of [articles], main.js 309-316. *)
Module Item.
Record t : Type := {
  author : option string;
  title : option string;
  link : option string;
  id : Key;
  published : Date;
  updated : Date
}.
End Item.

(** An element of [feeds], main.js 302-306: the raw feed spread, and the
    property [update] the callback adds; [updated] stays the value read
    from the file. *)
Module PageFeed.
Record t : Type := {
  title : option string;
  description : option string;
  link : option string;
  id : Key;
  articles : list RawArticle.t;
  updated : JsonDate;
  update : Date
}.
End PageFeed.

(** [new_item], main.js 354-363. *)
Module NewItem.
Record t : Type := {
  author : option string;
  title : option string;
  link : option string;
  id : Key;
  published : Date;
  updated : Date;
  title_matches : nat;
  author_matches : nat
}.
End NewItem.

(** [new_feed], main.js 397-406. *)
Module NewFeed.
Record t : Type := {
  title : option string;
  description : option string;
  link : option string;
  id : Key;
  articles : list RawArticle.t;
  updated : JsonDate;
  update : Date;
  title_matches : nat;
  description_matches : nat
}.
End NewFeed.

(** main.js 302-306. *)
Definition feeds (rawFeeds : list RawFeed.t) : list PageFeed.t :=
  map (fun rawFeed =>
         {| PageFeed.title := RawFeed.title rawFeed;
            PageFeed.description := RawFeed.description rawFeed;
            PageFeed.link := RawFeed.link rawFeed;
            PageFeed.id := RawFeed.id rawFeed;
            PageFeed.articles := RawFeed.articles rawFeed;
            PageFeed.updated := RawFeed.updated rawFeed;
            PageFeed.update := new_Date_of_json (RawFeed.updated rawFeed) |})
      rawFeeds.

(** main.js 308-317. *)
Definition articles (rawFeeds : list RawFeed.t) : list Item.t :=
  flat_map (fun feed =>
              map (fun article =>
                     {| Item.author := RawFeed.title feed;
                        Item.title := RawArticle.title article;
                        Item.link := RawArticle.link article;
                        Item.id := RawArticle.id article;
                        Item.published :=
                          new_Date_of_json (RawArticle.published article);
                        Item.updated :=
                          new_Date_of_json (RawArticle.updated article) |})
                  (RawFeed.articles feed))
           rawFeeds.

(** *** The set of read articles, main.js 321-330

    A [Set] of strings: its values in insertion order, each once. *)

Definition JsSet := list string.

Definition Set_has (x : string) (s : JsSet) : bool :=
  existsb (String.eqb x) s.

Definition Set_add (x : string) (s : JsSet) : JsSet :=
  if Set_has x s then s else s ++ [x].

(** [new Set(JSON.parse(localStorage.getItem("read_articles")))]: the
    item is absent ([getItem] gives [null], and so does [JSON.parse]) or
    holds an array of strings. *)
Definition new_Set (stored : option (list string)) : JsSet :=
  match stored with
  | None => []
  | Some values => fold_left (fun s x => Set_add x s) values []
  end.

(** [save_read(id)] without its call of [update_list]: the set after
    [add], and the array [setItem] stores. *)
Definition save_read (id : string) (read_articles : JsSet)
  : JsSet * list string :=
  let read_articles := Set_add id read_articles in
  (read_articles, read_articles).

(** The set after the page was opened on [stored] and [save_read] was
    called on each of [ids]. *)
Definition read_after (stored : option (list string)) (ids : list string)
  : JsSet :=
  fold_left (fun s id => fst (save_read id s)) ids (new_Set stored).

(** *** Sorting *)

(** [b - a] on two [Date] objects, [None] for NaN. *)
Definition Date_minus (b a : Date) : option Z :=
  match b, a with
  | TimeValue x, TimeValue y => Some (x - y)
  | _, _ => None
  end.

(** [ToNumber] of an [updated] value as the file holds it: the text of a
    date is no numeral, [null] is 0, [undefined] is NaN. *)
Definition ToNumber_json (v : JsonDate) : option Z :=
  match v with
  | JsonNull => Some 0
  | JsonIso _ => None
  | JsonAbsent => None
  end.

Definition Number_minus (b a : option Z) : option Z :=
  match b, a with
  | Some x, Some y => Some (x - y)
  | _, _ => None
  end.

(** What the sort makes of a comparator's result: NaN counts as 0. *)
Definition SortCompare (v : option Z) : Z :=
  match v with Some z => z | None => 0 end.

Section Sort.
Variable A : Type.
Variable comparefn : A -> A -> option Z.

Fixpoint sort_insert (x : A) (sorted : list A) : list A :=
  match sorted with
  | [] => [x]
  | y :: rest =>
      if SortCompare (comparefn x y) <=? 0 then x :: sorted
      else y :: sort_insert x rest
  end.

(** [array.sort(comparefn)]. *)
Fixpoint Array_sort (l : list A) : list A :=
  match l with
  | [] => []
  | x :: rest => sort_insert x (Array_sort rest)
  end.

(** [array.map(f)] for a callback that may throw. *)
Fixpoint map_throw {B : Type} (f : A -> option B) (l : list A)
  : option (list B) :=
  match l with
  | [] => Some []
  | a :: rest =>
      match f a with
      | None => None
      | Some b =>
          match map_throw f rest with
          | None => None
          | Some bs => Some (b :: bs)
          end
      end
  end.

End Sort.

Arguments sort_insert {A} comparefn x sorted.
Arguments Array_sort {A} comparefn l.
Arguments map_throw {A B} f l.

(** main.js 368-381. *)
Definition compare_articles (a b : NewItem.t) : option Z :=
  if negb (Nat.eqb (NewItem.title_matches a) (NewItem.title_matches b))
  then Some (Z.of_nat (NewItem.title_matches b)
             - Z.of_nat (NewItem.title_matches a))
  else if negb (Nat.eqb (NewItem.author_matches a)
                        (NewItem.author_matches b))
  then Some (Z.of_nat (NewItem.author_matches b)
             - Z.of_nat (NewItem.author_matches a))
  else Date_minus (NewItem.published b) (NewItem.published a).

(** main.js 411-424. *)
Definition compare_feeds (a b : NewFeed.t) : option Z :=
  if negb (Nat.eqb (NewFeed.title_matches a) (NewFeed.title_matches b))
  then Some (Z.of_nat (NewFeed.title_matches b)
             - Z.of_nat (NewFeed.title_matches a))
  else if negb (Nat.eqb (NewFeed.description_matches a)
                        (NewFeed.description_matches b))
  then Some (Z.of_nat (NewFeed.description_matches b)
             - Z.of_nat (NewFeed.description_matches a))
  else Number_minus (ToNumber_json (NewFeed.updated b))
                    (ToNumber_json (NewFeed.updated a)).

(** *** [update_list], main.js 332-434 *)

(** main.js 339-341: [pieces] is what [search.value.split(/\s+/)]
    gives. *)
Definition search_terms (pieces : list string) : list string :=
  filter (fun term => negb (Nat.eqb (String.length term) 0)) pieces.

Section UpdateList.
(** [text.replace(search_regex, match => { ++n; return marked; })] for
    the expression built from the terms: the new text and [n]. *)
Variable replace_counting : list string -> string -> string * nat.

(** The callback of the first [map], main.js 353-364.  [replace] is
    called on [title], then on [author]; reading it from [undefined]
    throws a TypeError. *)
Definition mark_item (terms : list string) (item : Item.t)
  : option NewItem.t :=
  if negb (Nat.eqb (List.length terms) 0) then
    match Item.title item with
    | None => None
    | Some title =>
        match Item.author item with
        | None => None
        | Some author =>
            Some {| NewItem.author :=
                      Some (fst (replace_counting terms author));
                    NewItem.title := Some (fst (replace_counting terms title));
                    NewItem.link := Item.link item;
                    NewItem.id := Item.id item;
                    NewItem.published := Item.published item;
                    NewItem.updated := Item.updated item;
                    NewItem.title_matches :=
                      snd (replace_counting terms title);
                    NewItem.author_matches :=
                      snd (replace_counting terms author) |}
        end
    end
  else
    Some {| NewItem.author := Item.author item;
            NewItem.title := Item.title item;
            NewItem.link := Item.link item;
            NewItem.id := Item.id item;
            NewItem.published := Item.published item;
            NewItem.updated := Item.updated item;
            NewItem.title_matches := 0;
            NewItem.author_matches := 0 |}.

(** The callback of the first [map], main.js 396-407. *)
Definition mark_feed (terms : list string) (feed : PageFeed.t)
  : option NewFeed.t :=
  if negb (Nat.eqb (List.length terms) 0) then
    match PageFeed.title feed with
    | None => None
    | Some title =>
        match PageFeed.description feed with
        | None => None
        | Some description =>
            Some {| NewFeed.title := Some (fst (replace_counting terms title));
                    NewFeed.description :=
                      Some (fst (replace_counting terms description));
                    NewFeed.link := PageFeed.link feed;
                    NewFeed.id := PageFeed.id feed;
                    NewFeed.articles := PageFeed.articles feed;
                    NewFeed.updated := PageFeed.updated feed;
                    NewFeed.update := PageFeed.update feed;
                    NewFeed.title_matches :=
                      snd (replace_counting terms title);
                    NewFeed.description_matches :=
                      snd (replace_counting terms description) |}
        end
    end
  else
    Some {| NewFeed.title := PageFeed.title feed;
            NewFeed.description := PageFeed.description feed;
            NewFeed.link := PageFeed.link feed;
            NewFeed.id := PageFeed.id feed;
            NewFeed.articles := PageFeed.articles feed;
            NewFeed.updated := PageFeed.updated feed;
            NewFeed.update := PageFeed.update feed;
            NewFeed.title_matches := 0;
            NewFeed.description_matches := 0 |}.

(** The filter of main.js 365-367. *)
Definition item_passes (terms : list string) (item : NewItem.t) : bool :=
  (List.length terms <=? NewItem.title_matches item)%nat
  || (List.length terms <=? NewItem.author_matches item)%nat.

(** The filter of main.js 408-410. *)
Definition feed_passes (terms : list string) (feed : NewFeed.t) : bool :=
  (List.length terms <=? NewFeed.title_matches feed)%nat
  || (List.length terms <=? NewFeed.description_matches feed)%nat.

(** [case "Articles"], main.js 350-392, up to the rendering: the items in
    the order they are shown, or [None] when a callback throws. *)
Definition update_list_articles (pieces : list string)
  (articles : list Item.t) : option (list NewItem.t) :=
  let terms := search_terms pieces in
  match map_throw (mark_item terms) articles with
  | None => None
  | Some items =>
      Some (Array_sort compare_articles (filter (item_passes terms) items))
  end.

(** [case "Feeds"], main.js 393-432, up to the rendering. *)
Definition update_list_feeds (pieces : list string)
  (feeds : list PageFeed.t) : option (list NewFeed.t) :=
  let terms := search_terms pieces in
  match map_throw (mark_feed terms) feeds with
  | None => None
  | Some items =>
      Some (Array_sort compare_feeds (filter (feed_passes terms) items))
  end.

End UpdateList.

(** The unmarked item of an article: what the first [map] returns for it
    when the search box is empty. *)
Definition plain_item (item : Item.t) : NewItem.t :=
  {| NewItem.author := Item.author item;
     NewItem.title := Item.title item;
     NewItem.link := Item.link item;
     NewItem.id := Item.id item;
     NewItem.published := Item.published item;
     NewItem.updated := Item.updated item;
     NewItem.title_matches := 0;
     NewItem.author_matches := 0 |}.

Definition plain_feed (feed : PageFeed.t) : NewFeed.t :=
  {| NewFeed.title := PageFeed.title feed;
     NewFeed.description := PageFeed.description feed;
     NewFeed.link := PageFeed.link feed;
     NewFeed.id := PageFeed.id feed;
     NewFeed.articles := PageFeed.articles feed;
     NewFeed.updated := PageFeed.updated feed;
     NewFeed.update := PageFeed.update feed;
     NewFeed.title_matches := 0;
     NewFeed.description_matches := 0 |}.

(** [a] is shown no later than [b]: more title matches, else more
    author matches, else a publication time that is not earlier. *)
Definition shown_before (a b : NewItem.t) : Prop :=
  (NewItem.title_matches b < NewItem.title_matches a)%nat \/
  (NewItem.title_matches a = NewItem.title_matches b /\
   ((NewItem.author_matches b < NewItem.author_matches a)%nat \/
    (NewItem.author_matches a = NewItem.author_matches b /\
     exists x y, NewItem.published a = TimeValue x /\
                 NewItem.published b = TimeValue y /\ y <= x))).

(** Every item has a valid publication time. *)
Definition dated (items : list Item.t) : Prop :=
  Forall (fun item => exists ms, Item.published item = TimeValue ms) items.

(** The article or its feed has no title. *)
Definition item_untitled (item : Item.t) : bool :=
  match Item.title item, Item.author item with
  | Some _, Some _ => false
  | _, _ => true
  end.

Definition feed_untitled (feed : PageFeed.t) : bool :=
  match PageFeed.title feed, PageFeed.description feed with
  | Some _, Some _ => false
  | _, _ => true
  end.

(** [a] is shown no later than [b] in the list of feeds: more title
    matches, else description matches that are not fewer. *)
Definition feed_shown_before (a b : NewFeed.t) : Prop :=
  (NewFeed.title_matches b < NewFeed.title_matches a)%nat \/
  (NewFeed.title_matches a = NewFeed.title_matches b /\
   (NewFeed.description_matches b <= NewFeed.description_matches a)%nat).

(** [a] was published no earlier than [b], both at a valid time. *)
Definition newer (a b : NewItem.t) : Prop :=
  exists x y, NewItem.published a = TimeValue x /\
              NewItem.published b = TimeValue y /\ y <= x.

End Page.

(* ===================================================================== *)
(** * Part II: lemmas and theorems                                        *)
(* ===================================================================== *)

(** ** Keys and dates *)

Lemma JsValue_eqb_spec (a b : JsValue) : reflect (a = b) (JsValue_eqb a b).
Proof.
  destruct a as [x|x|x], b as [y|y|y]; simpl;
    try (constructor; congruence).
  - destruct (String.eqb_spec x y); constructor; congruence.
  - unfold Number_eqb. destruct (Qcanon.Qc_eq_dec x y);
      constructor; congruence.
  - destruct (Bool.eqb_spec x y); constructor; congruence.
Qed.

Lemma key_eqb_spec (a b : Key) : reflect (a = b) (key_eqb a b).
Proof.
  destruct a as [x|], b as [y|]; simpl; try (constructor; congruence).
  destruct (JsValue_eqb_spec x y); constructor; congruence.
Qed.

Lemma key_eqb_refl (a : Key) : key_eqb a a = true.
Proof. destruct (key_eqb_spec a a); congruence. Qed.

Lemma key_eqb_neq (a b : Key) : a <> b -> key_eqb a b = false.
Proof. destruct (key_eqb_spec a b); congruence. Qed.

Lemma Date_gt_irrefl a : Date_gt a a = false.
Proof. destruct a; simpl; auto. apply Z.ltb_irrefl. Qed.

Lemma Date_gt_trans a b c :
  Date_gt a b = true -> Date_gt b c = true -> Date_gt a c = true.
Proof.
  destruct a, b, c; simpl; try discriminate.
  rewrite !Z.ltb_lt. lia.
Qed.

Ltac key_cases a b :=
  destruct (key_eqb_spec a b); [subst | ].

(** ** [Map] laws *)

Section MapLaws.
Variable V : Type.
Implicit Types (m : JsMap V) (k : Key) (v : V).

Lemma Map_get_set_same k v m : Map_get k (Map_set k v m) = Some v.
Proof.
  induction m as [|[k' v'] m IH]; simpl.
  - now rewrite key_eqb_refl.
  - destruct (key_eqb k k') eqn:E; simpl.
    + now rewrite key_eqb_refl.
    + now rewrite E.
Qed.

Lemma Map_get_set_other k k' v m :
  k <> k' -> Map_get k' (Map_set k v m) = Map_get k' m.
Proof.
  intros Hne. induction m as [|[k0 v0] m IH]; simpl.
  - rewrite key_eqb_neq; auto.
  - destruct (key_eqb_spec k k0) as [->|Hk]; simpl.
    + rewrite key_eqb_neq; auto.
    + now rewrite IH.
Qed.

Lemma Map_get_set k k' v m :
  Map_get k' (Map_set k v m) = if key_eqb k' k then Some v else Map_get k' m.
Proof.
  key_cases k' k.
  - apply Map_get_set_same.
  - apply Map_get_set_other; congruence.
Qed.

(** Storing the object a key already holds changes nothing. *)
Lemma Map_set_get_id k v m : Map_get k m = Some v -> Map_set k v m = m.
Proof.
  induction m as [|[k' v'] m IH]; simpl; [discriminate|].
  destruct (key_eqb_spec k k') as [->|Hk]; intros H.
  - congruence.
  - now rewrite IH.
Qed.

Lemma Map_set_set k v v' m : Map_set k v (Map_set k v' m) = Map_set k v m.
Proof.
  induction m as [|[k0 v0] m IH]; simpl.
  - now rewrite key_eqb_refl.
  - destruct (key_eqb k k0) eqn:E; simpl.
    + now rewrite key_eqb_refl.
    + rewrite E. congruence.
Qed.

Lemma Map_keys_set_present k v m :
  In k (Map_keys m) -> Map_keys (Map_set k v m) = Map_keys m.
Proof.
  unfold Map_keys. induction m as [|[k0 v0] m IH]; simpl; [tauto|].
  intros [->|Hin].
  - now rewrite key_eqb_refl.
  - key_cases k k0; simpl; [reflexivity|]. now rewrite IH.
Qed.

Lemma Map_keys_set_absent k v m :
  ~ In k (Map_keys m) -> Map_keys (Map_set k v m) = Map_keys m ++ [k].
Proof.
  unfold Map_keys. induction m as [|[k0 v0] m IH]; simpl; [reflexivity|].
  intros Hn. rewrite key_eqb_neq by (intros ->; apply Hn; now left).
  simpl. rewrite IH; [reflexivity|]. intros H; apply Hn; now right.
Qed.

Lemma Map_get_in_keys k m : Map_get k m <> None <-> In k (Map_keys m).
Proof.
  unfold Map_keys. induction m as [|[k0 v0] m IH]; simpl; [tauto|].
  key_cases k k0.
  - split; [auto | discriminate].
  - rewrite IH. split; [auto | intros [?|?]; congruence].
Qed.

Lemma Map_get_In k v m : Map_get k m = Some v -> In (k, v) m.
Proof.
  induction m as [|[k0 v0] m IH]; simpl; [discriminate|].
  key_cases k k0; intros H; [left; congruence | right; auto].
Qed.

Lemma Map_wf_set k v m : Map_wf m -> Map_wf (Map_set k v m).
Proof.
  unfold Map_wf. intros Hnd.
  destruct (in_dec (fun a b => reflect_dec _ _ (key_eqb_spec a b)) k (Map_keys m))
    as [Hin|Hout].
  - now rewrite Map_keys_set_present.
  - rewrite Map_keys_set_absent by assumption.
    apply NoDup_app; auto.
    + constructor; [intros [] | constructor].
    + intros x Hx [<-|[]]. contradiction.
Qed.

Lemma In_Map_set k v m kv :
  In kv (Map_set k v m) -> kv = (k, v) \/ In kv m.
Proof.
  induction m as [|[k0 v0] m IH]; simpl.
  - intros [<-|[]]; auto.
  - destruct (key_eqb k k0); simpl; intros [<-|H]; auto.
    destruct (IH H); auto.
Qed.

End MapLaws.

(** ** The inner loop: one incoming article *)

Lemma merge_article_get_same articles b :
  Map_get (Article.id b) (merge_article articles b) =
  Some match Map_get (Article.id b) articles with
       | None => b
       | Some a =>
           if Date_gt (Article.updated b) (Article.updated a) then b else a
       end.
Proof.
  unfold merge_article.
  destruct (Map_get (Article.id b) articles) as [a|] eqn:Ha.
  - destruct (Date_gt _ _); [apply Map_get_set_same | exact Ha].
  - apply Map_get_set_same.
Qed.

Lemma merge_article_get_other articles b k :
  k <> Article.id b ->
  Map_get k (merge_article articles b) = Map_get k articles.
Proof.
  intros Hk. unfold merge_article.
  destruct (Map_get (Article.id b) articles) as [a|].
  - destruct (Date_gt _ _); [|reflexivity].
    apply Map_get_set_other; congruence.
  - apply Map_get_set_other; congruence.
Qed.

Lemma merge_article_settled articles b :
  settled articles b -> merge_article articles b = articles.
Proof.
  intros (a & Ha & Hgt). unfold merge_article. now rewrite Ha, Hgt.
Qed.

Lemma settled_self articles b : settled (merge_article articles b) b.
Proof.
  unfold settled. rewrite merge_article_get_same.
  destruct (Map_get (Article.id b) articles) as [a|].
  - destruct (Date_gt (Article.updated b) (Article.updated a)) eqn:E;
      eexists; split; eauto using Date_gt_irrefl.
  - eexists; split; eauto using Date_gt_irrefl.
Qed.

Lemma settled_step articles b c :
  settled articles b -> settled (merge_article articles c) b.
Proof.
  intros (a & Ha & Hgt). unfold settled.
  destruct (key_eqb_spec (Article.id b) (Article.id c)) as [E|N].
  - rewrite E in *. rewrite merge_article_get_same, Ha.
    destruct (Date_gt (Article.updated c) (Article.updated a)) eqn:Hca.
    + exists c. split; [reflexivity|].
      destruct (Date_gt (Article.updated b) (Article.updated c)) eqn:Hbc;
        [|reflexivity].
      rewrite (Date_gt_trans _ _ _ Hbc Hca) in Hgt. discriminate.
    + exists a. auto.
  - exists a. rewrite merge_article_get_other; auto.
Qed.

Lemma merge_articles_settles news :
  forall articles b,
    In b news \/ settled articles b ->
    settled (merge_articles articles news) b.
Proof.
  induction news as [|c news IH]; simpl; intros articles b H.
  - destruct H as [[]|H]; exact H.
  - apply IH. destruct H as [[<-|Hin]|Hs].
    + right. apply settled_self.
    + now left.
    + right. now apply settled_step.
Qed.

Lemma merge_articles_fixed news :
  forall articles,
    (forall b, In b news -> settled articles b) ->
    merge_articles articles news = articles.
Proof.
  induction news as [|c news IH]; simpl; intros articles H; [reflexivity|].
  rewrite merge_article_settled by (apply H; now left).
  apply IH. intros b Hb. apply H. now right.
Qed.

Lemma merge_articles_idem articles news :
  merge_articles (merge_articles articles news) news =
  merge_articles articles news.
Proof.
  apply merge_articles_fixed. intros b Hb.
  apply merge_articles_settles. now left.
Qed.

(** An id bound before the loop is bound after it, to the old article or
    to an incoming one of that id. *)
Lemma merge_articles_keeps news :
  forall articles x a,
    Map_get x articles = Some a ->
    exists a', Map_get x (merge_articles articles news) = Some a' /\
               (a' = a \/ (In a' news /\ Article.id a' = x)).
Proof.
  induction news as [|c news IH]; simpl; intros articles x a Ha.
  - exists a. auto.
  - destruct (key_eqb_spec x (Article.id c)) as [E|N].
    + subst x.
      destruct (IH (merge_article articles c) (Article.id c)
                  (if Date_gt (Article.updated c) (Article.updated a)
                   then c else a)) as (a' & Hget & Hor).
      { now rewrite merge_article_get_same, Ha. }
      exists a'. split; [exact Hget|].
      destruct Hor as [->|[Hin Hid]]; [|now auto].
      destruct (Date_gt _ _); auto.
    + destruct (IH (merge_article articles c) x a) as (a' & Hget & Hor).
      { rewrite merge_article_get_other; auto. }
      exists a'. split; [exact Hget|]. tauto.
Qed.

(** Incoming articles of other ids leave a binding alone. *)
Lemma merge_articles_get_other news :
  forall articles x,
    (forall c, In c news -> Article.id c <> x) ->
    Map_get x (merge_articles articles news) = Map_get x articles.
Proof.
  induction news as [|c news IH]; simpl; intros articles x H; [reflexivity|].
  rewrite IH by (intros c' Hc'; apply H; now right).
  apply merge_article_get_other. intros E. apply (H c); auto.
Qed.

(** ** The outer loop: one incoming feed *)

Lemma merge_get_self feeds newFeed :
  Map_get (NewFeed.id newFeed) (merge feeds newFeed) =
  Some (Feed.with_articles (target feeds newFeed)
          (merge_articles (Feed.articles (target feeds newFeed))
             (NewFeed.articles newFeed))).
Proof.
  unfold merge, target.
  destruct (Map_get (NewFeed.id newFeed) feeds); apply Map_get_set_same.
Qed.

Lemma merge_get_other feeds newFeed k :
  k <> NewFeed.id newFeed ->
  Map_get k (merge feeds newFeed) = Map_get k feeds.
Proof.
  intros Hk. unfold merge.
  destruct (Map_get (NewFeed.id newFeed) feeds);
    rewrite !Map_get_set_other; congruence.
Qed.

(** ** Idempotence *)

(** C1. Merge is idempotent: merging the same normalised feed into any
    store twice in a row gives the same store (bindings and their order)
    as merging it once, because the second pass finds every incoming
    article already bound to an article that it is not strictly newer
    than. *)
Theorem merge_idempotent (feeds : Store) (newFeed : NewFeed.t) :
  merge (merge feeds newFeed) newFeed = merge feeds newFeed.
Proof.
  assert (Hself := merge_get_self feeds newFeed).
  set (once := merge feeds newFeed) in *.
  unfold merge at 1. rewrite Hself. cbn [Feed.with_articles Feed.articles].
  rewrite merge_articles_idem.
  apply Map_set_get_id. exact Hself.
Qed.

(** ** Monotonic replacement *)

Lemma filter_nil_none (A : Type) (f : A -> bool) (l : list A) :
  filter f l = [] -> forall c, In c l -> f c = false.
Proof.
  induction l as [|x l IH]; simpl; [tauto|].
  destruct (f x) eqn:E; [discriminate|].
  intros H c [<-|Hc]; auto.
Qed.

Lemma merge_articles_single news :
  forall articles a b,
    Map_get (Article.id b) articles = Some a ->
    filter (fun c => key_eqb (Article.id c) (Article.id b)) news = [b] ->
    Map_get (Article.id b) (merge_articles articles news) =
    Some (if Date_gt (Article.updated b) (Article.updated a) then b else a).
Proof.
  induction news as [|c news IH]; simpl; intros articles a b Ha Hf;
    [discriminate|].
  destruct (key_eqb_spec (Article.id c) (Article.id b)) as [E|N].
  - injection Hf as -> Hrest.
    rewrite merge_articles_get_other.
    + now rewrite merge_article_get_same, Ha.
    + intros c Hc Hid.
      pose proof (filter_nil_none _ _ _ Hrest c Hc) as Hn. simpl in Hn.
      rewrite Hid, key_eqb_refl in Hn. discriminate.
  - apply IH; [|exact Hf].
    rewrite merge_article_get_other; auto.
Qed.

Lemma holds_newer_choice a b :
  holds_newer
    (if Date_gt (Article.updated b) (Article.updated a) then b else a) a b.
Proof.
  unfold holds_newer.
  destruct (Date_gt (Article.updated b) (Article.updated a)).
  - split; [reflexivity|]. split; [discriminate|]. intros _. tauto.
  - split; [discriminate|]. split; [reflexivity|].
    intros Hab. split; [congruence | discriminate].
Qed.

(** C3. Monotonic replacement: when article [a] is stored under the id
    of an incoming article [b], then after [b] is offered the article set
    holds [b] under that id if [b.updated > a.updated] and holds [a],
    unchanged, otherwise.  This holds of the loop body for one incoming
    article, and of the merge of a whole feed in which [b] is the one
    article of that id. *)
Theorem monotonic_replacement (a b : Article.t) :
  (forall articles,
     Map_get (Article.id b) articles = Some a ->
     exists held,
       Map_get (Article.id b) (merge_article articles b) = Some held /\
       holds_newer held a b) /\
  (forall feeds newFeed feed,
     Map_get (NewFeed.id newFeed) feeds = Some feed ->
     Map_get (Article.id b) (Feed.articles feed) = Some a ->
     filter (fun c => key_eqb (Article.id c) (Article.id b))
            (NewFeed.articles newFeed) = [b] ->
     exists feed' held,
       Map_get (NewFeed.id newFeed) (merge feeds newFeed) = Some feed' /\
       Map_get (Article.id b) (Feed.articles feed') = Some held /\
       holds_newer held a b).
Proof.
  split.
  - intros articles Ha. eexists. split.
    + rewrite merge_article_get_same, Ha. reflexivity.
    + apply holds_newer_choice.
  - intros feeds newFeed feed Hfeed Ha Hone.
    eexists. eexists. split; [apply merge_get_self|].
    unfold target. rewrite Hfeed. cbn [Feed.with_articles Feed.articles].
    split; [apply merge_articles_single; eassumption|].
    apply holds_newer_choice.
Qed.

(** ** No deletion *)

(** C4. Merge never deletes: a feed id bound in the store before a merge
    is bound after it, and every article id bound in that feed is still
    bound in it, to the same article or to an incoming article of the
    same id. *)
Theorem merge_never_deletes
  (feeds : Store) (newFeed : NewFeed.t) (k : Key) (feed : Feed.t) :
  Map_get k feeds = Some feed ->
  exists feed',
    Map_get k (merge feeds newFeed) = Some feed' /\
    forall x a,
      Map_get x (Feed.articles feed) = Some a ->
      exists a',
        Map_get x (Feed.articles feed') = Some a' /\
        (a' = a \/ (In a' (NewFeed.articles newFeed) /\ Article.id a' = x)).
Proof.
  intros Hfeed.
  destruct (key_eqb_spec k (NewFeed.id newFeed)) as [->|Hk].
  - eexists. split; [apply merge_get_self|].
    unfold target. rewrite Hfeed. cbn [Feed.with_articles Feed.articles].
    intros x a Ha. now apply merge_articles_keeps.
  - exists feed. split; [now rewrite merge_get_other|].
    intros x a Ha. exists a. auto.
Qed.

(** ** Frame *)

(** C8. Merge frame condition: when the store already holds a feed under
    the incoming feed's id, the merge leaves that feed's title,
    description, link, id and updated as they were; the stored feed
    differs from the old one in its articles map at most. *)
Theorem merge_frame (feeds : Store) (newFeed : NewFeed.t) (feed : Feed.t) :
  Map_get (NewFeed.id newFeed) feeds = Some feed ->
  exists feed',
    Map_get (NewFeed.id newFeed) (merge feeds newFeed) = Some feed' /\
    Feed.title feed' = Feed.title feed /\
    Feed.description feed' = Feed.description feed /\
    Feed.link feed' = Feed.link feed /\
    Feed.id feed' = Feed.id feed /\
    Feed.updated feed' = Feed.updated feed /\
    feed' = Feed.with_articles feed (Feed.articles feed').
Proof.
  intros Hfeed. eexists. split; [apply merge_get_self|].
  unfold target. rewrite Hfeed. cbn. repeat split.
Qed.

(** ** Key coherence *)

Section Forallb_Map.
Variable V : Type.
Variable P : Key * V -> bool.

Lemma forallb_Map_set k v (m : JsMap V) :
  forallb P m = true -> P (k, v) = true -> forallb P (Map_set k v m) = true.
Proof.
  intros Hm Hkv. induction m as [|[k0 v0] m IH]; simpl in *.
  - now rewrite Hkv.
  - apply andb_true_iff in Hm as [H0 Hm].
    destruct (key_eqb k k0); simpl.
    + now rewrite Hkv.
    + rewrite H0. auto.
Qed.

Lemma forallb_Map_get k v (m : JsMap V) :
  forallb P m = true -> Map_get k m = Some v -> P (k, v) = true.
Proof.
  intros Hm Hget. rewrite forallb_forall in Hm.
  apply Hm. now apply Map_get_In.
Qed.

End Forallb_Map.

Lemma merge_article_coherent articles b :
  articles_coherent articles = true ->
  articles_coherent (merge_article articles b) = true.
Proof.
  intros H. unfold merge_article.
  assert (Hset : articles_coherent (Map_set (Article.id b) b articles) = true).
  { apply forallb_Map_set; [exact H|]. simpl. apply key_eqb_refl. }
  destruct (Map_get (Article.id b) articles); [|exact Hset].
  destruct (Date_gt _ _); auto.
Qed.

Lemma merge_articles_coherent news :
  forall articles,
    articles_coherent articles = true ->
    articles_coherent (merge_articles articles news) = true.
Proof.
  induction news as [|c news IH]; simpl; intros articles H; [exact H|].
  apply IH. now apply merge_article_coherent.
Qed.

Lemma target_coherent feeds newFeed :
  store_coherent feeds = true ->
  Feed.id (target feeds newFeed) = NewFeed.id newFeed /\
  articles_coherent (Feed.articles (target feeds newFeed)) = true.
Proof.
  intros H. unfold target.
  destruct (Map_get (NewFeed.id newFeed) feeds) as [feed|] eqn:E.
  - pose proof (forallb_Map_get _ _ _ _ _ H E) as Hkv. simpl in Hkv.
    apply andb_true_iff in Hkv as [Hid Harts].
    destruct (key_eqb_spec (NewFeed.id newFeed) (Feed.id feed));
      [auto | discriminate].
  - split; reflexivity.
Qed.

Lemma merge_coherent feeds newFeed :
  store_coherent feeds = true -> store_coherent (merge feeds newFeed) = true.
Proof.
  intros H. destruct (target_coherent feeds newFeed H) as [Hid Harts].
  unfold target in Hid, Harts. unfold merge.
  destruct (Map_get (NewFeed.id newFeed) feeds) as [feed|].
  - apply forallb_Map_set; [exact H|]. simpl.
    rewrite Hid, key_eqb_refl. simpl.
    now apply merge_articles_coherent.
  - apply forallb_Map_set.
    + apply forallb_Map_set; [exact H|]. simpl. now rewrite key_eqb_refl.
    + simpl. rewrite key_eqb_refl. simpl.
      now apply merge_articles_coherent.
Qed.

Lemma load_articles_coherent rawArticles :
  articles_coherent (load_articles rawArticles) = true.
Proof.
  unfold load_articles.
  assert (G : forall l acc, articles_coherent acc = true ->
    articles_coherent
      (fold_left (fun articles rawArticle =>
                    let article := load_article rawArticle in
                    Map_set (Article.id article) article articles) l acc)
    = true).
  { induction l as [|r l IH]; simpl; intros acc Hacc; [exact Hacc|].
    apply IH. apply forallb_Map_set; [exact Hacc|].
    simpl. apply key_eqb_refl. }
  now apply G.
Qed.

Lemma load_coherent rawFeedList : store_coherent (load rawFeedList) = true.
Proof.
  unfold load.
  assert (G : forall l acc, store_coherent acc = true ->
    store_coherent
      (fold_left (fun feeds rawFeed =>
                    let feed := load_feed rawFeed in
                    Map_set (Feed.id feed) feed feeds) l acc) = true).
  { induction l as [|r l IH]; simpl; intros acc Hacc; [exact Hacc|].
    apply IH. apply forallb_Map_set; [exact Hacc|].
    simpl. rewrite key_eqb_refl. simpl. apply load_articles_coherent. }
  now apply G.
Qed.

(** C10. Store key coherence: the store built by loading the persisted
    file binds every key to a feed of that id and, inside each feed, every
    key to an article of that id; merging a normalised feed into a store
    with this property gives a store with this property.  Ids and keys
    range over [undefined] and strings alike. *)
Theorem key_coherence :
  (forall rawFeedList, store_coherent (load rawFeedList) = true) /\
  (forall feeds newFeed,
      store_coherent feeds = true ->
      store_coherent (merge feeds newFeed) = true).
Proof.
  split; [exact load_coherent | exact merge_coherent].
Qed.

(** ** Worked instances of the merge theorems *)

(** Monotonic replacement on the blog: the edited post replaces the
    stored one. *)
Lemma monotonic_replacement_witness :
  exists feed' held,
    Map_get (Some (JsString "https://x/")) (merge blog_store blog_fetched) = Some feed' /\
    Map_get (Some (JsString "https://x/1")) (Feed.articles feed') = Some held /\
    holds_newer held post_v1 post_v2.
Proof.
  apply (proj2 (monotonic_replacement post_v1 post_v2)
               blog_store blog_fetched blog);
    reflexivity.
Defined.

(** No deletion on the blog. *)
Lemma merge_never_deletes_witness :
  exists feed',
    Map_get (Some (JsString "https://x/")) (merge blog_store blog_fetched) = Some feed' /\
    forall x a,
      Map_get x (Feed.articles blog) = Some a ->
      exists a',
        Map_get x (Feed.articles feed') = Some a' /\
        (a' = a \/
         (In a' (NewFeed.articles blog_fetched) /\ Article.id a' = x)).
Proof.
  apply (merge_never_deletes blog_store blog_fetched (Some (JsString "https://x/")) blog).
  reflexivity.
Defined.

(** The frame on the blog: the renamed feed keeps its stored title. *)
Lemma merge_frame_witness :
  exists feed',
    Map_get (Some (JsString "https://x/")) (merge blog_store blog_fetched) = Some feed' /\
    Feed.title feed' = Some "Blog" /\
    Feed.description feed' = Some "About x" /\
    Feed.link feed' = Some "https://x/" /\
    Feed.id feed' = Some (JsString "https://x/") /\
    Feed.updated feed' = TimeValue 1000 /\
    feed' = Feed.with_articles blog (Feed.articles feed').
Proof.
  apply (merge_frame blog_store blog_fetched blog). reflexivity.
Defined.

(** Coherence of the blog store before and after the merge. *)
Lemma key_coherence_witness :
  store_coherent blog_store = true /\
  store_coherent (merge blog_store blog_fetched) = true.
Proof.
  split; [reflexivity|].
  apply (proj2 key_coherence blog_store blog_fetched). reflexivity.
Defined.

(** The merged blog: the post replaced in place, the note appended. *)
Example merge_blog :
  merge blog_store blog_fetched =
  [(Some (JsString "https://x/"),
    Feed.with_articles blog
      [(Some (JsString "https://x/1"), post_v2); (None, note_v1)])].
Proof. reflexivity. Qed.

(** ** Persistence *)

Section Rebuild.
Variables V W : Type.
Variable key : V -> Key.
Variable F : V -> W.

Lemma Map_set_absent k (w : W) (m : JsMap W) :
  ~ In k (Map_keys m) -> Map_set k w m = m ++ [(k, w)].
Proof.
  unfold Map_keys. induction m as [|[k0 w0] m IH]; simpl; intros Hn;
    [reflexivity|].
  rewrite key_eqb_neq by (intros ->; apply Hn; now left).
  rewrite IH; [reflexivity|]. intros H; apply Hn; now right.
Qed.

(** Setting the values of a map one by one, each under its own key,
    appends the map's bindings in order. *)
Lemma fold_Map_set_rebuild (l : JsMap V) :
  forall acc : JsMap W,
    (forall k v, In (k, v) l -> k = key v) ->
    NoDup (Map_keys acc ++ Map_keys l) ->
    fold_left (fun m v => Map_set (key v) (F v) m) (Map_values l) acc =
    acc ++ map (fun kv => (fst kv, F (snd kv))) l.
Proof.
  induction l as [|[k v] l IH]; simpl; intros acc Hkey Hnd.
  - now rewrite app_nil_r.
  - assert (Hk : k = key v) by (apply Hkey; now left). subst k.
    rewrite Map_set_absent.
    + rewrite IH.
      * now rewrite <- app_assoc.
      * intros k' v' Hin. apply Hkey. now right.
      * unfold Map_keys in *. rewrite map_app, <- app_assoc. exact Hnd.
    + apply NoDup_remove_2 in Hnd. intros Hin. apply Hnd.
      apply in_or_app. now left.
Qed.

End Rebuild.

Lemma fold_left_map_list (A B C : Type) (g : C -> B -> C) (h : A -> B)
  (l : list A) :
  forall acc, fold_left g (map h l) acc = fold_left (fun c a => g c (h a)) l acc.
Proof. induction l as [|a l IH]; simpl; intros acc; auto. Qed.

Lemma coherent_keys (V : Type) (key : V -> Key) (m : JsMap V) :
  forallb (fun kv => key_eqb (fst kv) (key (snd kv))) m = true ->
  forall k v, In (k, v) m -> k = key v.
Proof.
  intros H k v Hin. rewrite forallb_forall in H.
  specialize (H _ Hin). simpl in H.
  destruct (key_eqb_spec k (key v)); [assumption | discriminate].
Qed.

Lemma load_articles_stringify (articles : JsMap Article.t) :
  Map_wf articles -> articles_coherent articles = true ->
  load_articles (map stringify_article (Map_values articles)) =
  map (fun kv => (fst kv, reload_article (snd kv))) articles.
Proof.
  intros Hwf Hco. unfold load_articles.
  rewrite fold_left_map_list.
  apply (fold_Map_set_rebuild _ _ Article.id reload_article articles []).
  - now apply coherent_keys.
  - exact Hwf.
Qed.

(** What the file gives back: every binding in place, each feed and
    article rebuilt by [reload_feed] and [reload_article]. *)
Lemma load_save (feeds : Store) :
  store_wf feeds -> store_coherent feeds = true ->
  load (save feeds) = map (fun kv => (fst kv, reload_feed (snd kv))) feeds.
Proof.
  intros [Hwf Harts] Hco. unfold load, save.
  rewrite fold_left_map_list.
  assert (Hkeys : forall k v, In (k, v) feeds -> k = Feed.id v).
  { apply coherent_keys. unfold store_coherent in Hco.
    rewrite forallb_forall in *. intros kv Hin.
    specialize (Hco kv Hin). now apply andb_true_iff in Hco as [H _]. }
  change (map (fun kv => (fst kv, reload_feed (snd kv))) feeds)
    with ([] ++ map (fun kv => (fst kv, reload_feed (snd kv))) feeds).
  rewrite <- (fold_Map_set_rebuild _ _ Feed.id reload_feed feeds [] Hkeys Hwf).
  assert (G : forall l acc,
    (forall kv, In kv l -> In kv feeds) ->
    fold_left (fun (m : Store) (feed : Feed.t) =>
       let feed0 := load_feed
         {| RawFeed.title := Feed.title feed;
            RawFeed.description := Feed.description feed;
            RawFeed.link := Feed.link feed;
            RawFeed.id := Feed.id feed;
            RawFeed.articles :=
              map stringify_article (Map_values (Feed.articles feed));
            RawFeed.updated := toJSON (Feed.updated feed) |} in
       Map_set (Feed.id feed0) feed0 m) (Map_values l) acc =
    fold_left (fun m v => Map_set (Feed.id v) (reload_feed v) m)
      (Map_values l) acc).
  { induction l as [|[k f] l IH]; simpl; intros acc Hsub; [reflexivity|].
    rewrite IH by (intros kv Hin; apply Hsub; now right).
    f_equal. f_equal. unfold load_feed, reload_feed. simpl.
    f_equal. apply load_articles_stringify.
    - rewrite Forall_forall in Harts. apply (Harts (k, f)). apply Hsub.
      now left.
    - unfold store_coherent in Hco. rewrite forallb_forall in Hco.
      specialize (Hco (k, f) (Hsub _ (or_introl eq_refl))).
      now apply andb_true_iff in Hco as [_ H]. }
  apply G. auto.
Qed.

(** An article with valid dates that was not edited since it was
    published comes back from the file as it was. *)
Lemma reload_article_fixed article ms :
  Article.published article = TimeValue ms ->
  Article.updated article = TimeValue ms ->
  reload_article article = article.
Proof.
  destruct article as [t l i p u]. simpl. intros -> ->. reflexivity.
Qed.

(** Short of line 39 the round trip is exact: a store with valid dates
    whose articles were never updated after publication is loaded back as
    it was saved. *)
Lemma load_save_unedited (feeds : Store) :
  store_wf feeds -> store_coherent feeds = true -> store_unedited feeds ->
  load (save feeds) = feeds.
Proof.
  intros Hwf Hco Hun. rewrite load_save by assumption.
  rewrite <- (map_id feeds) at 2. apply map_ext_in.
  intros [k feed] Hin. simpl. f_equal.
  unfold store_unedited in Hun. rewrite Forall_forall in Hun.
  destruct (Hun _ Hin) as [[ms Hupd] Harts]. simpl in Hupd, Harts.
  destruct feed as [t d l i arts u]. unfold reload_feed. simpl in *.
  subst u. simpl. f_equal.
  rewrite <- (map_id arts) at 2. apply map_ext_in.
  intros [x a] Hxa. simpl. f_equal.
  rewrite Forall_forall in Harts.
  destruct (Harts _ Hxa) as [[ms' Hp] Hu]. simpl in Hp, Hu.
  apply (reload_article_fixed a ms'); congruence.
Qed.

(** ** The association lists stay [Map]s *)

Lemma Forall_Map_set (V : Type) (P : Key * V -> Prop) k v (m : JsMap V) :
  Forall P m -> P (k, v) -> Forall P (Map_set k v m).
Proof.
  intros Hm Hkv. rewrite Forall_forall in *.
  intros kv Hin. destruct (In_Map_set _ _ _ _ _ Hin) as [->|H]; auto.
Qed.

Lemma merge_articles_wf news :
  forall articles, Map_wf articles -> Map_wf (merge_articles articles news).
Proof.
  induction news as [|c news IH]; simpl; intros articles H; [exact H|].
  apply IH. unfold merge_article.
  destruct (Map_get (Article.id c) articles);
    [destruct (Date_gt _ _)|]; auto using Map_wf_set.
Qed.

Lemma merge_store_wf feeds newFeed :
  store_wf feeds -> store_wf (merge feeds newFeed).
Proof.
  intros [Hwf Harts]. unfold merge.
  destruct (Map_get (NewFeed.id newFeed) feeds) as [feed|] eqn:E.
  - split; [now apply Map_wf_set|].
    apply Forall_Map_set; [exact Harts|]. simpl.
    apply merge_articles_wf. rewrite Forall_forall in Harts.
    apply (Harts (NewFeed.id newFeed, feed)). now apply Map_get_In.
  - split; [now repeat apply Map_wf_set|].
    repeat apply Forall_Map_set; auto; simpl.
    + constructor.
    + apply merge_articles_wf. constructor.
Qed.

Lemma load_articles_wf rawArticles : Map_wf (load_articles rawArticles).
Proof.
  unfold load_articles.
  assert (G : forall l acc, Map_wf acc ->
    Map_wf (fold_left (fun articles rawArticle =>
                         let article := load_article rawArticle in
                         Map_set (Article.id article) article articles)
                      l acc)).
  { induction l as [|r l IH]; simpl; intros acc Hacc; [exact Hacc|].
    apply IH. now apply Map_wf_set. }
  apply G. constructor.
Qed.

Lemma load_store_wf rawFeedList : store_wf (load rawFeedList).
Proof.
  unfold load.
  assert (G : forall l acc, store_wf acc ->
    store_wf (fold_left (fun feeds rawFeed =>
                           let feed := load_feed rawFeed in
                           Map_set (Feed.id feed) feed feeds) l acc)).
  { induction l as [|r l IH]; simpl; intros acc [Hwf Harts]; [now split|].
    apply IH. split; [now apply Map_wf_set|].
    apply Forall_Map_set; [exact Harts|]. simpl. apply load_articles_wf. }
  apply G. split; constructor.
Qed.

(** C2. Persistence round trip, at a store whose article was updated
    after it was published: the loaded store holds the article with
    [updated] equal to its [published] time, not the saved one. *)
Theorem load_save_forgets_updated :
  load (save edited_store) =
    [(Some (JsString "https://x/"),
      Feed.with_articles blog
        [(Some (JsString "https://x/1"),
          {| Article.title := Some "Post (edited)";
             Article.link := Some "https://x/1";
             Article.id := Some (JsString "https://x/1");
             Article.published := TimeValue 1000;
             Article.updated := TimeValue 1000 |})])] /\
  load (save edited_store) <> edited_store.
Proof.
  split; [reflexivity | discriminate].
Qed.

(** ** Normalisation in JavaScript *)

Section NormaliseFacts.
Context {host : Host}.

Lemma rss_article_run item w :
  rss_article item w =
  (if rss_link_parses item then Some (rss_emitted item (ticks w)) else None,
   tick2 w).
Proof.
  unfold rss_article, rss_link_parses, rss_emitted, rss_link, rss_link_text,
    new_URL_href, bind, Date_now, ret, throw, tick2.
  destruct item as [t [l|] [g|] p]; cbn;
    try destruct (URL_of _); cbn; reflexivity.
Qed.

Lemma Array_map_rss items :
  forall w,
    Array_map rss_article items w =
    (if forallb rss_link_parses items
     then Some (rss_emitted_all items (ticks w)) else None,
     {| ticks := rss_ticks items (ticks w); current := current w |}).
Proof.
  induction items as [|item items IH]; intros w.
  - destruct w; reflexivity.
  - cbn [Array_map forallb rss_emitted_all rss_ticks]. unfold bind at 1.
    rewrite rss_article_run.
    destruct (rss_link_parses item); cbn [andb]; [|reflexivity].
    unfold bind at 1. rewrite IH. cbn [tick2 ticks current].
    destruct (forallb rss_link_parses items); reflexivity.
Qed.

Lemma forallb_false_existsb (A : Type) (f : A -> bool) (l : list A) :
  existsb (fun a => negb (f a)) l = true -> forallb f l = false.
Proof.
  induction l as [|a l IH]; simpl; [discriminate|].
  destruct (f a); simpl; auto.
Qed.

Lemma rss_emitted_all_length items :
  forall n, List.length (rss_emitted_all items n) = List.length items.
Proof. induction items; simpl; intros; auto. Qed.

(** The articles of the feed a parsed RSS document is normalised to. *)
Lemma normalise_rss_articles url x ch items n :
  rss x = Some (Some ch) -> Rss.items ch = Some items ->
  NewFeed.articles (fst (normalise url (Some x) n)) =
  if channel_link_parses ch && forallb rss_link_parses items
  then rss_emitted_all items (S n) else [].
Proof.
  intros Hrss Hitems. unfold normalise, try_body. rewrite Hrss.
  unfold rss_branch, channel_link_parses. rewrite Hitems.
  unfold bind, assign, ret, throw, new_URL_href.
  destruct (Rss.title ch), (Rss.description ch); cbn;
    (destruct (Rss.link ch) as [node|];
     [destruct (truthy (hash_text node));
      [destruct (URL_of _)|]|]);
    cbn; rewrite ?Array_map_rss; cbn;
    try destruct (forallb rss_link_parses items); cbn;
    try destruct (Rss.lastBuildDate ch); try destruct (Rss.pubDate ch);
    reflexivity.
Qed.

End NormaliseFacts.

(** C5 (as amended). RSS normalisation isolates a URL failure per feed,
    not per item.  For a parsed RSS document with a channel and items:
    if the link text of some item (its guid text when it has no link)
    fails URL parsing, the feed is returned with no article at all; if
    the channel's own link and every item's parse, the feed holds exactly
    one article per item, in document order, each as [rss_emitted]
    resolves it, and none is dropped: not even an item with neither link
    nor guid, whose article has id and link unset. *)
Theorem rss_failure_is_feed_wide
  (host : Host) (url : string) (x : XmlFeed) (ch : Rss.channel)
  (items : list Rss.item) (n : nat) :
  rss x = Some (Some ch) ->
  Rss.items ch = Some items ->
  (existsb (fun item => negb (rss_link_parses item)) items = true ->
   NewFeed.articles (fst (normalise url (Some x) n)) = []) /\
  (channel_link_parses ch = true ->
   forallb rss_link_parses items = true ->
   NewFeed.articles (fst (normalise url (Some x) n)) =
     rss_emitted_all items (S n) /\
   List.length (NewFeed.articles (fst (normalise url (Some x) n))) =
     List.length items).
Proof.
  intros Hrss Hitems.
  rewrite (normalise_rss_articles url x ch items n Hrss Hitems).
  split.
  - intros Hbad. rewrite (forallb_false_existsb _ _ _ Hbad).
    now rewrite andb_false_r.
  - intros -> ->. cbn [andb]. split; [reflexivity|].
    apply rss_emitted_all_length.
Qed.

(** A sound document: both items are emitted, in order. *)
Lemma rss_failure_is_feed_wide_witness :
  NewFeed.articles
    (fst (@normalise plain_host "https://x/feed" (Some rss_doc_sound) 0)) =
  [ {| Article.title := Some "Post"; Article.link := Some "https://x/1";
       Article.id := Some (JsString "https://x/1");
       Article.published := TimeValue 1700000000001;
       Article.updated := TimeValue 1700000000002 |};
    {| Article.title := Some "Post"; Article.link := Some "https://x/2";
       Article.id := Some (JsString "https://x/2");
       Article.published := TimeValue 1700000000003;
       Article.updated := TimeValue 1700000000004 |} ].
Proof.
  refine (proj1 (proj2 (rss_failure_is_feed_wide plain_host "https://x/feed"
                          rss_doc_sound _ _ 0 eq_refl eq_refl) _ _));
    reflexivity.
Defined.

(** C5, as stated, fails: with one sound item and one whose link is no
    URL the feed comes back with no article, the sound one included; and
    an item with neither link nor guid is emitted, not dropped. *)
Lemma rss_item_isolation_counterexample :
  NewFeed.articles
    (fst (@normalise plain_host "https://x/feed"
            (Some rss_doc_one_bad_link) 0)) = [] /\
  NewFeed.articles
    (fst (@normalise plain_host "https://x/feed"
            (Some rss_doc_anonymous_item) 0)) =
  [ {| Article.title := Some "Post"; Article.link := None;
       Article.id := None;
       Article.published := TimeValue 1700000000001;
       Article.updated := TimeValue 1700000000002 |} ].
Proof. split; reflexivity. Qed.

(** ** A document with an unknown root *)

(** The feed the callback returns when the [try] block assigned nothing. *)
Lemma normalise_other_root (host : Host) url n :
  normalise url (Some other_root) n =
  ({| NewFeed.title := None; NewFeed.description := None;
      NewFeed.link := None; NewFeed.id := None; NewFeed.articles := [];
      NewFeed.updated := TimeValue (wall n) |}, S n).
Proof. reflexivity. Qed.

(** In a store that binds nothing under [undefined], a document with an
    unknown root adds a feed under [undefined]. *)
Lemma other_root_grows_store (host : Host) url (feeds : Store) :
  Map_get None feeds = None ->
  updateFeeds feeds [Text url (Some other_root)] =
  feeds ++ [(None, {| Feed.title := None; Feed.description := None;
                      Feed.link := None; Feed.id := None;
                      Feed.articles := [];
                      Feed.updated := TimeValue (wall 0) |})].
Proof.
  intros Hnone. unfold updateFeeds. cbn. unfold merge. cbn. rewrite Hnone.
  unfold merge_articles. cbn.
  rewrite Map_set_set. apply Map_set_absent.
  intros Hin. apply Map_get_in_keys in Hin; auto.
Qed.

(** C6. Unknown-root tolerance, evaluated on the empty store: the
    document yields one feed, with every field unset, and the cycle binds
    it in the store under [undefined]. *)
Theorem unknown_root_leaves_phantom_feed (host : Host) (url : string) :
  newFeeds_from [Text url (Some other_root)] 0 =
    [ {| NewFeed.title := None; NewFeed.description := None;
         NewFeed.link := None; NewFeed.id := None; NewFeed.articles := [];
         NewFeed.updated := TimeValue (wall 0) |} ] /\
  updateFeeds [] [Text url (Some other_root)] =
    [ (None, {| Feed.title := None; Feed.description := None;
                Feed.link := None; Feed.id := None; Feed.articles := [];
                Feed.updated := TimeValue (wall 0) |}) ].
Proof. split; reflexivity. Qed.

(** The Go loop drops such a document: no feed is appended. *)
Lemma go_unknown_root_skipped time_Parse time_Now feeds k url root r a :
  root <> "rss" -> root <> "feed" ->
  Go.ingest time_Parse time_Now feeds k url (Go.Body root r a) = (feeds, k).
Proof.
  intros Hr Hf. unfold Go.ingest.
  destruct (String.eqb_spec root "rss"); [contradiction|].
  destruct (String.eqb_spec root "feed"); [contradiction|]. reflexivity.
Qed.

(** ** Atom entry timestamps *)

Ltac solve_run :=
  first [ do 3 eexists; reflexivity
        | exists None, None, None; reflexivity ].

(** What the Atom callback does, by the presence of [published] and
    [updated]. *)
Lemma atom_article_run (host : Host) entry w :
  exists title link id,
  atom_article entry w =
  (if atom_link_parses entry then
     match Atom.entry_published entry, Atom.entry_updated entry with
     | Some p, Some u =>
         Some {| Article.title := title; Article.link := link;
                 Article.id := id;
                 Article.published := new_Date (hash_text p);
                 Article.updated := new_Date (hash_text u) |}
     | Some p, None => None
     | None, Some u =>
         Some {| Article.title := title; Article.link := link;
                 Article.id := id;
                 Article.published := new_Date (hash_text u);
                 Article.updated := TimeValue (wall (S (ticks w))) |}
     | None, None =>
         Some {| Article.title := title; Article.link := link;
                 Article.id := id;
                 Article.published := TimeValue (wall (ticks w));
                 Article.updated := TimeValue (wall (S (ticks w))) |}
     end
   else None, tick2 w).
Proof.
  unfold atom_article, atom_link_parses, atom_link_text, new_URL_href,
    bind, Date_now, ret, throw, tick2.
  destruct entry as [t l i p u]; cbn.
  destruct l as [nodes|]; cbn.
  - destruct (match find_rel "alternate" nodes with
              | Some node => Some node
              | None => hd_error nodes
              end) as [node|]; cbn.
    + destruct (URL_of _); cbn.
      * destruct p, u; cbn; solve_run.
      * solve_run.
    + destruct p, u; cbn; solve_run.
  - destruct p, u; cbn; solve_run.
Qed.

(** C9 (as amended). Atom entry timestamps.  In the JavaScript
    normaliser, for an entry whose link parses and which does not have a
    [published] element without an [updated] one, the callback returns an
    article: its published is [new Date] of the text of [published] if
    that element is present, else of [updated] if that is present, else
    the clock; its updated is [new Date] of the text of [updated] when
    both elements are present, and the next reading of the clock when
    neither is.  In the Go normaliser the two fields are resolved apart
    from each other: each is the clock when its own element is empty, and
    else what [time.Parse] makes of it, the clock if that fails. *)
Theorem atom_entry_timestamps (host : Host) (entry : Atom.entry) (w : World) :
  (atom_link_parses entry = true ->
   (Atom.entry_published entry = None \/ Atom.entry_updated entry <> None) ->
   exists article,
     atom_article entry w = (Some article, tick2 w) /\
     Article.published article =
       match Atom.entry_published entry, Atom.entry_updated entry with
       | Some node, _ => new_Date (hash_text node)
       | None, Some node => new_Date (hash_text node)
       | None, None => TimeValue (wall (ticks w))
       end /\
     match Atom.entry_published entry, Atom.entry_updated entry with
     | Some _, Some node =>
         Article.updated article = new_Date (hash_text node)
     | None, None =>
         Article.updated article = TimeValue (wall (S (ticks w)))
     | _, _ => True
     end) /\
  (forall time_Parse time_Now atomEntry k,
     Go.Entry.Published (Go.atom_entry time_Parse time_Now atomEntry k) =
       (if String.eqb (Go.AtomEntry.Published atomEntry) "" then time_Now k
        else match time_Parse Go.RFC3339 (Go.AtomEntry.Published atomEntry)
             with
             | Some parsed => parsed
             | None => time_Now k
             end) /\
     Go.Entry.Updated (Go.atom_entry time_Parse time_Now atomEntry k) =
       (if String.eqb (Go.AtomEntry.Updated atomEntry) "" then time_Now (S k)
        else match time_Parse Go.RFC3339 (Go.AtomEntry.Updated atomEntry)
             with
             | Some parsed => parsed
             | None => time_Now (S k)
             end)).
Proof.
  split.
  - intros Hlink Hcase.
    destruct (atom_article_run host entry w) as (title & link & id & Hrun).
    rewrite Hlink in Hrun. rewrite Hrun.
    destruct (Atom.entry_published entry) as [p|],
             (Atom.entry_updated entry) as [u|];
      try (eexists; split; [reflexivity|]; split; [reflexivity|]; cbn; auto).
    destruct Hcase as [H|H]; [discriminate | congruence].
  - intros. split; reflexivity.
Qed.

(** An entry with both elements, a day apart. *)
Lemma atom_entry_timestamps_witness :
  exists article,
    @atom_article plain_host
      (atom_entry_of (Some "2006-01-02T15:04:05Z")
                     (Some "2006-01-03T15:04:05Z"))
      {| ticks := 1; current := blog_fetched |} =
      (Some article, {| ticks := 3; current := blog_fetched |}) /\
    Article.published article = TimeValue 1136214245000 /\
    Article.updated article = TimeValue 1136300645000.
Proof.
  refine (proj1 (atom_entry_timestamps plain_host
                   (atom_entry_of (Some "2006-01-02T15:04:05Z")
                                  (Some "2006-01-03T15:04:05Z"))
                   {| ticks := 1; current := blog_fetched |}) _ _).
  - reflexivity.
  - right. discriminate.
Defined.

(** C9, as stated, fails.  In JavaScript an entry with [published] and no
    [updated] makes the feed come back without entries, and an entry with
    [updated] and no [published] gets the clock as its updated, not the
    parsed [updated].  In Go an entry with one of the two elements gets
    the clock for the other: updated does not mirror published, and
    published does not fall back on updated. *)
Lemma atom_timestamp_fallback_counterexample :
  NewFeed.articles
    (fst (@normalise plain_host "https://x/atom"
            (Some (atom_doc [atom_entry_of (Some "2006-01-02T15:04:05Z")
                                           None])) 0)) = [] /\
  map (fun a => (Article.published a, Article.updated a))
    (NewFeed.articles
       (fst (@normalise plain_host "https://x/atom"
               (Some (atom_doc [atom_entry_of None
                                  (Some "2006-01-02T15:04:05Z")])) 0))) =
    [(TimeValue 1136214245000, TimeValue 1700000000002)] /\
  (Go.Entry.Published
     (Go.atom_entry (GoTime.Parse GoTime.utc_local) go_clock
        (go_atom_entry_of "2006-01-02T15:04:05Z" "") 0),
   Go.Entry.Updated
     (Go.atom_entry (GoTime.Parse GoTime.utc_local) go_clock
        (go_atom_entry_of "2006-01-02T15:04:05Z" "") 0)) =
    ({| Go.unix := 1136214245; Go.nsec := 0 |},
     {| Go.unix := 1700000001; Go.nsec := 0 |}) /\
  (Go.Entry.Published
     (Go.atom_entry (GoTime.Parse GoTime.utc_local) go_clock
        (go_atom_entry_of "" "2006-01-02T15:04:05Z") 0),
   Go.Entry.Updated
     (Go.atom_entry (GoTime.Parse GoTime.utc_local) go_clock
        (go_atom_entry_of "" "2006-01-02T15:04:05Z") 0)) =
    ({| Go.unix := 1700000000; Go.nsec := 0 |},
     {| Go.unix := 1136214245; Go.nsec := 0 |}).
Proof. repeat split; vm_compute; reflexivity. Qed.

(** ** The RSS date resolver of the Go program *)

Lemma IndexRune_lower s c : -1 <= Go.strings_IndexRune s c.
Proof.
  induction s as [|a s IH]; simpl; [lia|].
  destruct (Ascii.eqb a c); [lia|].
  destruct (Z.eqb_spec (Go.strings_IndexRune s c) (-1)); lia.
Qed.

(** The slice the code takes at the index of the first comma is the text
    after the first comma. *)
Lemma slice_at_first_comma raw :
  match after_first_comma raw with
  | None => Go.strings_IndexRune raw "," = -1
  | Some rest =>
      0 <= Go.strings_IndexRune raw "," /\
      Go.slice_from (Z.to_nat (Go.strings_IndexRune raw "," + 1)) raw = rest
  end.
Proof.
  induction raw as [|a raw IH]; simpl; [reflexivity|].
  destruct (Ascii.eqb a ","); [split; [lia | reflexivity]|].
  destruct (after_first_comma raw) as [rest|].
  - destruct IH as [Hpos Hslice].
    destruct (Z.eqb_spec (Go.strings_IndexRune raw ",") (-1)); [lia|].
    split; [lia|].
    replace (Z.to_nat (Go.strings_IndexRune raw "," + 1 + 1))
      with (S (Z.to_nat (Go.strings_IndexRune raw "," + 1))) by lia.
    exact Hslice.
  - now rewrite IH.
Qed.

Lemma parseRssDateOrNow_refines time_Parse now raw :
  Go.parseRssDateOrNow time_Parse now raw =
  resolve_rss_date time_Parse now raw.
Proof.
  unfold Go.parseRssDateOrNow, resolve_rss_date.
  destruct (String.eqb raw ""); [reflexivity|].
  assert (Hstrip :
    (if negb (Go.strings_IndexRune raw "," =? -1)
     then Go.strings_TrimSpace
            (Go.slice_from (Z.to_nat (Go.strings_IndexRune raw "," + 1)) raw)
     else raw) = strip_weekday raw).
  { unfold strip_weekday. pose proof (slice_at_first_comma raw) as H.
    destruct (after_first_comma raw) as [rest|].
    - destruct H as [Hpos ->].
      destruct (Z.eqb_spec (Go.strings_IndexRune raw ",") (-1)); [lia|].
      reflexivity.
    - now rewrite H. }
  rewrite Hstrip. unfold Go.rss_layouts. cbn [first_success].
  repeat match goal with
         | |- context [time_Parse ?l ?s] => destruct (time_Parse l s)
         end; reflexivity.
Qed.

Lemma reads_as_first_success parse layouts s t :
  (exists layout, In layout layouts /\ parse layout s <> None) ->
  (forall layout t', In layout layouts ->
                     parse layout s = Some t' -> t' = t) ->
  first_success parse layouts s = Some t.
Proof.
  induction layouts as [|l layouts IH]; simpl; intros (l0 & Hin & Hne) Hall.
  - contradiction.
  - destruct (parse l s) as [t'|] eqn:E.
    + f_equal. apply (Hall l); auto.
    + apply IH.
      * destruct Hin as [<-|Hin]; [congruence|]. exists l0. auto.
      * intros l' t' Hl'. apply Hall. auto.
Qed.

(** C7 (as amended). RSS date resolution.  In the Go program,
    [parseRssDateOrNow] returns the current time for the empty text; for
    any other text it drops what stands before the first comma and the
    comma, trims the rest, tries the four patterns in their order
    (four-digit year with zone name, with numeric offset, two-digit year
    with zone name, with numeric offset) and returns the first
    successful parse, or the current time when all four fail; the four
    example texts resolve to one instant, whatever instant [time.Parse]
    reads them as.  The JavaScript normaliser has no such resolver: for
    an item whose callback returns, a [pubDate] with a truthy text gives
    published and updated [new Date] of that text, which for a string is
    what [Date.parse] makes of the whole text, an Invalid Date included:
    nothing is stripped, no pattern is tried and the clock is not used.
    Only an item without [pubDate], or with a falsy text, keeps the two
    readings of the clock. *)
Theorem parseRssDateOrNow_resolution
  (time_Parse : string -> string -> option Go.Time) (now : Go.Time) :
  Go.parseRssDateOrNow time_Parse now "" = now /\
  (forall raw,
     Go.parseRssDateOrNow time_Parse now raw =
     resolve_rss_date time_Parse now raw) /\
  (forall raw,
     raw <> "" ->
     (forall layout, In layout Go.rss_layouts ->
                     time_Parse layout (strip_weekday raw) = None) ->
     Go.parseRssDateOrNow time_Parse now raw = now) /\
  (forall t,
     (forall e, In e rss_date_examples ->
                reads_as time_Parse (strip_weekday e) t) ->
     forall e, In e rss_date_examples ->
               Go.parseRssDateOrNow time_Parse now e = t) /\
  (forall (host : Host) (item : Rss.item) (w : World),
     rss_link_parses item = true ->
     exists article,
       rss_article item w = (Some article, tick2 w) /\
       (forall node,
          Rss.item_pubDate item = Some node ->
          truthy (hash_text node) = true ->
          Article.published article = new_Date (hash_text node) /\
          Article.updated article = new_Date (hash_text node)) /\
       (forall node raw,
          Rss.item_pubDate item = Some node ->
          hash_text node = Some (JsString raw) -> raw <> "" ->
          Article.published article = Date_parse raw /\
          Article.updated article = Date_parse raw) /\
       ((Rss.item_pubDate item = None \/
         exists node, Rss.item_pubDate item = Some node /\
                      truthy (hash_text node) = false) ->
        Article.published article = TimeValue (wall (ticks w)) /\
        Article.updated article = TimeValue (wall (S (ticks w))))).
Proof.
  split; [reflexivity|]. split; [apply parseRssDateOrNow_refines|].
  split; [|split].
  - intros raw Hraw Hnone. rewrite parseRssDateOrNow_refines.
    unfold resolve_rss_date.
    destruct (String.eqb_spec raw ""); [contradiction|].
    unfold Go.rss_layouts in *. cbn [first_success].
    rewrite !Hnone by (simpl; auto 6). reflexivity.
  - intros t Hreads e He. rewrite parseRssDateOrNow_refines.
    unfold resolve_rss_date.
    destruct (String.eqb_spec e "") as [->|_].
    + simpl in He. repeat destruct He as [He|He]; try discriminate.
      contradiction.
    + destruct (Hreads e He) as [Hsome Hall].
      now rewrite (reads_as_first_success _ _ _ _ Hsome Hall).
  - intros host item w Hlink. rewrite rss_article_run, Hlink.
    eexists. split; [reflexivity|].
    unfold rss_emitted. cbn [Article.published Article.updated].
    split; [|split].
    + intros node Hnode Htruthy. rewrite Hnode, Htruthy. auto.
    + intros node raw Hnode Htext Hraw. rewrite Hnode, Htext.
      cbn [truthy new_Date].
      destruct (String.eqb_spec raw EmptyString); [contradiction|].
      cbn [negb]. auto.
    + intros [Hnone|(node & Hnode & Hfalsy)].
      * rewrite Hnone. auto.
      * rewrite Hnode, Hfalsy. auto.
Qed.

(** The instance of [time.Parse] reads the four examples as the
    reference instant. *)
Lemma GoTime_reads_examples :
  forall e, In e rss_date_examples ->
            reads_as (GoTime.Parse GoTime.utc_local) (strip_weekday e)
                     reference_instant.
Proof.
  intros e He. simpl in He.
  repeat destruct He as [<-|He]; try contradiction;
    (split;
     [ first [ exists "02 Jan 2006 15:04:05 MST";
               split; [simpl; auto 6 | vm_compute; discriminate]
             | exists "02 Jan 2006 15:04:05 -0700";
               split; [simpl; auto 6 | vm_compute; discriminate]
             | exists "02 Jan 06 15:04:05 MST";
               split; [simpl; auto 6 | vm_compute; discriminate]
             | exists "02 Jan 06 15:04:05 -0700";
               split; [simpl; auto 6 | vm_compute; discriminate] ]
     | intros layout t' Hl; simpl in Hl;
       repeat destruct Hl as [<-|Hl]; try contradiction;
       vm_compute; intros H; first [discriminate | now injection H] ]).
Qed.

(** The four examples, resolved with that instance. *)
Lemma parseRssDateOrNow_resolution_witness :
  map (Go.parseRssDateOrNow (GoTime.Parse GoTime.utc_local) (go_clock 0))
      rss_date_examples =
  [reference_instant; reference_instant; reference_instant;
   reference_instant].
Proof.
  pose proof (proj1 (proj2 (proj2 (proj2
    (parseRssDateOrNow_resolution (GoTime.Parse GoTime.utc_local)
       (go_clock 0))))) reference_instant GoTime_reads_examples) as H.
  unfold rss_date_examples in *. cbn [map].
  rewrite !H by (simpl; auto 6). reflexivity.
Defined.

(** C7, as stated, fails in JavaScript.  An item whose [pubDate] is no
    date comes out with an Invalid Date for published and for updated,
    not with the current time; the Go resolver gives the current time
    for the same text. *)
Lemma rss_date_fallback_counterexample :
  map (fun a => (Article.published a, Article.updated a))
    (NewFeed.articles
       (fst (@normalise plain_host "https://x/feed"
               (Some (rss_doc [rss_item_dated "not a date"])) 0))) =
    [(InvalidDate, InvalidDate)] /\
  Go.parseRssDateOrNow (GoTime.Parse GoTime.utc_local) (go_clock 0)
    "not a date" = go_clock 0.
Proof. split; vm_compute; reflexivity. Qed.

(* ===================================================================== *)
(** * Part III: further properties of the code                            *)
(* ===================================================================== *)

(** ** The store keeps its order *)

Lemma merge_article_keys articles b :
  Map_keys (merge_article articles b) =
  Map_keys articles ++
  match Map_get (Article.id b) articles with
  | Some _ => []
  | None => [Article.id b]
  end.
Proof.
  unfold merge_article.
  destruct (Map_get (Article.id b) articles) as [a|] eqn:E.
  - rewrite app_nil_r. destruct (Date_gt _ _); [|reflexivity].
    apply Map_keys_set_present. apply Map_get_in_keys. congruence.
  - apply Map_keys_set_absent. intros Hin.
    apply Map_get_in_keys in Hin. contradiction.
Qed.

Lemma merge_articles_keys news :
  forall articles,
  exists added,
    Map_keys (merge_articles articles news) = Map_keys articles ++ added /\
    forall x, In x added ->
              In x (map Article.id news) /\ ~ In x (Map_keys articles).
Proof.
  induction news as [|c news IH]; simpl; intros articles.
  - exists []. split; [now rewrite app_nil_r | intros x []].
  - destruct (IH (merge_article articles c)) as (added & Hkeys & Hadded).
    rewrite merge_article_keys in Hkeys.
    destruct (Map_get (Article.id c) articles) as [a|] eqn:E.
    + rewrite app_nil_r in Hkeys. exists added. split; [exact Hkeys|].
      intros x Hx. destruct (Hadded x Hx) as [Hin Hout].
      rewrite merge_article_keys, E, app_nil_r in Hout. auto.
    + exists (Article.id c :: added). split.
      * rewrite Hkeys, <- app_assoc. reflexivity.
      * intros x [<-|Hx].
        -- split; [now left|]. intros Hin.
           apply Map_get_in_keys in Hin. contradiction.
        -- destruct (Hadded x Hx) as [Hin Hout]. split; [now right|].
           intros Hk. apply Hout. rewrite merge_article_keys, E.
           apply in_or_app. now left.
Qed.

(** X1. A merge keeps the store in order: the feeds that were there stay
    where they stand, and a feed of a new id goes to the end.  Inside the
    feed it merges into, the article ids that were there stay where they
    stand, and the ids it adds are ids of incoming articles that were
    not bound before. *)
Theorem merge_keeps_order (feeds : Store) (newFeed : NewFeed.t) :
  Map_keys (merge feeds newFeed) =
    Map_keys feeds ++
    match Map_get (NewFeed.id newFeed) feeds with
    | Some _ => []
    | None => [NewFeed.id newFeed]
    end /\
  exists feed' added,
    Map_get (NewFeed.id newFeed) (merge feeds newFeed) = Some feed' /\
    Map_keys (Feed.articles feed') =
      Map_keys (Feed.articles (target feeds newFeed)) ++ added /\
    forall x, In x added ->
      In x (map Article.id (NewFeed.articles newFeed)) /\
      ~ In x (Map_keys (Feed.articles (target feeds newFeed))).
Proof.
  split.
  - unfold merge.
    destruct (Map_get (NewFeed.id newFeed) feeds) as [feed|] eqn:E.
    + rewrite app_nil_r. apply Map_keys_set_present.
      apply Map_get_in_keys. congruence.
    + rewrite Map_keys_set_present.
      * apply Map_keys_set_absent. intros Hin.
        apply Map_get_in_keys in Hin. contradiction.
      * apply Map_get_in_keys. rewrite Map_get_set_same. discriminate.
  - destruct (merge_articles_keys (NewFeed.articles newFeed)
                (Feed.articles (target feeds newFeed)))
      as (added & Hkeys & Hadded).
    eexists. exists added. split; [apply merge_get_self|].
    cbn [Feed.with_articles Feed.articles]. auto.
Qed.

(** X2. A merge touches one feed: every feed bound under another id than
    the incoming feed's is bound afterwards to the same object, and an id
    that was not bound and is not the incoming feed's stays unbound. *)
Theorem merge_spares_other_feeds
  (feeds : Store) (newFeed : NewFeed.t) (k : Key) :
  k <> NewFeed.id newFeed ->
  Map_get k (merge feeds newFeed) = Map_get k feeds.
Proof. apply merge_get_other. Qed.

Lemma merge_spares_other_feeds_witness :
  Map_get None (merge blog_store blog_fetched) = None.
Proof.
  rewrite (merge_spares_other_feeds blog_store blog_fetched None);
    [reflexivity | discriminate].
Defined.

(** ** No incoming article is lost *)

Lemma merge_articles_origin news :
  forall articles x held,
    Map_get x (merge_articles articles news) = Some held ->
    Map_get x articles = Some held \/ (In held news /\ Article.id held = x).
Proof.
  induction news as [|c news IH]; simpl; intros articles x held H; [auto|].
  destruct (IH _ _ _ H) as [Hold|[Hin Hid]]; [|now auto].
  destruct (key_eqb_spec x (Article.id c)) as [->|N].
  - rewrite merge_article_get_same in Hold. injection Hold as <-.
    destruct (Map_get (Article.id c) articles) as [a|]; [|now auto].
    destruct (Date_gt _ _); auto.
  - rewrite merge_article_get_other in Hold; auto.
Qed.

(** X3. A merge loses no incoming article: after it, the id of every
    incoming article is bound, in the feed merged into, to an article
    that the incoming one is not strictly newer than, and that article is
    an incoming article of this id or the one bound there before. *)
Theorem merge_absorbs_incoming
  (feeds : Store) (newFeed : NewFeed.t) (b : Article.t) :
  In b (NewFeed.articles newFeed) ->
  exists feed' held,
    Map_get (NewFeed.id newFeed) (merge feeds newFeed) = Some feed' /\
    Map_get (Article.id b) (Feed.articles feed') = Some held /\
    Date_gt (Article.updated b) (Article.updated held) = false /\
    (Map_get (Article.id b) (Feed.articles (target feeds newFeed)) = Some held
     \/ (In held (NewFeed.articles newFeed) /\
         Article.id held = Article.id b)).
Proof.
  intros Hb.
  destruct (merge_articles_settles (NewFeed.articles newFeed)
              (Feed.articles (target feeds newFeed)) b (or_introl Hb))
    as (held & Hget & Hgt).
  eexists. exists held. split; [apply merge_get_self|].
  cbn [Feed.with_articles Feed.articles].
  repeat split; auto.
  now apply merge_articles_origin.
Qed.

Lemma merge_absorbs_incoming_witness :
  exists feed' held,
    Map_get (Some (JsString "https://x/")) (merge blog_store blog_fetched) = Some feed' /\
    Map_get None (Feed.articles feed') = Some held /\
    Date_gt (TimeValue 1500) (Article.updated held) = false /\
    (Map_get None (Feed.articles (target blog_store blog_fetched)) = Some held
     \/ (In held (NewFeed.articles blog_fetched) /\
         Article.id held = None)).
Proof.
  apply (merge_absorbs_incoming blog_store blog_fetched note_v1).
  simpl. auto.
Defined.

(** ** A whole cycle *)

Lemma with_articles_same feed :
  Feed.with_articles feed (Feed.articles feed) = feed.
Proof. destruct feed; reflexivity. Qed.

Lemma merge_settled feeds newFeed :
  feed_settled feeds newFeed -> merge feeds newFeed = feeds.
Proof.
  intros (feed & Hget & Hall). unfold merge. rewrite Hget.
  rewrite merge_articles_fixed by exact Hall.
  rewrite with_articles_same. now apply Map_set_get_id.
Qed.

Lemma feed_settled_self feeds newFeed :
  feed_settled (merge feeds newFeed) newFeed.
Proof.
  eexists. split; [apply merge_get_self|].
  intros b Hb. cbn [Feed.with_articles Feed.articles].
  apply merge_articles_settles. now left.
Qed.

Lemma feed_settled_step feeds newFeed other :
  feed_settled feeds newFeed -> feed_settled (merge feeds other) newFeed.
Proof.
  intros (feed & Hget & Hall).
  destruct (key_eqb_spec (NewFeed.id newFeed) (NewFeed.id other)) as [E|N].
  - eexists. split; [rewrite E; apply merge_get_self|].
    unfold target. rewrite <- E, Hget.
    intros b Hb. cbn [Feed.with_articles Feed.articles].
    apply merge_articles_settles. right. now apply Hall.
  - exists feed. split; [|exact Hall].
    rewrite merge_get_other; auto.
Qed.

Lemma merge_all_settles newFeeds :
  forall feeds newFeed,
    In newFeed newFeeds \/ feed_settled feeds newFeed ->
    feed_settled (merge_all feeds newFeeds) newFeed.
Proof.
  unfold merge_all.
  induction newFeeds as [|f newFeeds IH]; simpl; intros feeds newFeed H.
  - destruct H as [[]|H]; exact H.
  - apply IH. destruct H as [[<-|Hin]|Hs].
    + right. apply feed_settled_self.
    + now left.
    + right. now apply feed_settled_step.
Qed.

Lemma merge_all_fixed newFeeds :
  forall feeds,
    (forall newFeed, In newFeed newFeeds -> feed_settled feeds newFeed) ->
    merge_all feeds newFeeds = feeds.
Proof.
  unfold merge_all.
  induction newFeeds as [|f newFeeds IH]; simpl; intros feeds H;
    [reflexivity|].
  rewrite merge_settled by (apply H; now left).
  apply IH. intros g Hg. apply H. now right.
Qed.

(** X4. A whole merge pass is idempotent: running the loop over the same
    list of normalised feeds a second time leaves the store as the first
    pass left it, also when feeds of the list share an id. *)
Theorem merge_all_idempotent (feeds : Store) (newFeeds : list NewFeed.t) :
  merge_all (merge_all feeds newFeeds) newFeeds = merge_all feeds newFeeds.
Proof.
  apply merge_all_fixed. intros newFeed Hin.
  apply merge_all_settles. now left.
Qed.

Lemma merge_keeps_feed feeds newFeed k feed :
  Map_get k feeds = Some feed ->
  exists feed' added,
    Map_get k (merge feeds newFeed) = Some feed' /\
    feed' = Feed.with_articles feed (Feed.articles feed') /\
    Map_keys (Feed.articles feed') = Map_keys (Feed.articles feed) ++ added.
Proof.
  intros Hfeed.
  destruct (key_eqb_spec k (NewFeed.id newFeed)) as [->|Hk].
  - destruct (merge_articles_keys (NewFeed.articles newFeed)
                (Feed.articles feed)) as (added & Hkeys & _).
    eexists. exists added. split; [apply merge_get_self|].
    unfold target. rewrite Hfeed. cbn [Feed.with_articles Feed.articles].
    split; [reflexivity | exact Hkeys].
  - exists feed, []. split; [now rewrite merge_get_other|].
    split; [now rewrite with_articles_same | now rewrite app_nil_r].
Qed.

Lemma merge_keys_grow feeds newFeed :
  exists added, Map_keys (merge feeds newFeed) = Map_keys feeds ++ added.
Proof.
  unfold merge.
  destruct (Map_get (NewFeed.id newFeed) feeds) as [feed|] eqn:E.
  - exists []. rewrite app_nil_r. apply Map_keys_set_present.
    apply Map_get_in_keys. congruence.
  - exists [NewFeed.id newFeed]. rewrite Map_keys_set_present.
    + apply Map_keys_set_absent. intros Hin.
      apply Map_get_in_keys in Hin. contradiction.
    + apply Map_get_in_keys. rewrite Map_get_set_same. discriminate.
Qed.

(** X5. A whole merge pass deletes and reorders nothing: the feed ids of
    the store before it are the first ids of the store after it, in the
    same order; every feed that was there keeps its title, description,
    link, id and updated, and the article ids it had are the first
    article ids it has afterwards, in the same order. *)
Theorem merge_all_keeps (feeds : Store) (newFeeds : list NewFeed.t) :
  (exists added,
     Map_keys (merge_all feeds newFeeds) = Map_keys feeds ++ added) /\
  (forall k feed,
     Map_get k feeds = Some feed ->
     exists feed' added,
       Map_get k (merge_all feeds newFeeds) = Some feed' /\
       feed' = Feed.with_articles feed (Feed.articles feed') /\
       Map_keys (Feed.articles feed') =
         Map_keys (Feed.articles feed) ++ added).
Proof.
  unfold merge_all. revert feeds.
  induction newFeeds as [|f newFeeds IH]; simpl; intros feeds.
  - split.
    + exists []. now rewrite app_nil_r.
    + intros k feed H. exists feed, [].
      now rewrite with_articles_same, app_nil_r.
  - destruct (IH (merge feeds f)) as [(added2 & Hkeys2) Hfeeds2].
    destruct (merge_keys_grow feeds f) as (added1 & Hkeys1).
    split.
    + exists (added1 ++ added2). now rewrite Hkeys2, Hkeys1, app_assoc.
    + intros k feed Hget.
      destruct (merge_keeps_feed feeds f k feed Hget)
        as (feed1 & add1 & Hget1 & Hmeta1 & Hk1).
      destruct (Hfeeds2 k feed1 Hget1) as (feed2 & add2 & Hget2 & Hmeta2 & Hk2).
      exists feed2, (add1 ++ add2). split; [exact Hget2|]. split.
      * rewrite Hmeta2 at 1. rewrite Hmeta1. reflexivity.
      * now rewrite Hk2, Hk1, app_assoc.
Qed.

(** ** From the file to the file *)

Lemma merge_all_store_wf newFeeds :
  forall feeds, store_wf feeds -> store_wf (merge_all feeds newFeeds).
Proof.
  unfold merge_all.
  induction newFeeds as [|f newFeeds IH]; simpl; intros feeds H; [exact H|].
  apply IH. now apply merge_store_wf.
Qed.

Lemma merge_all_coherent newFeeds :
  forall feeds,
    store_coherent feeds = true ->
    store_coherent (merge_all feeds newFeeds) = true.
Proof.
  unfold merge_all.
  induction newFeeds as [|f newFeeds IH]; simpl; intros feeds H; [exact H|].
  apply IH. now apply merge_coherent.
Qed.

Lemma coherent_ids (V : Type) (key : V -> Key) (m : JsMap V) :
  forallb (fun kv => key_eqb (fst kv) (key (snd kv))) m = true ->
  map key (Map_values m) = Map_keys m.
Proof.
  intros H. unfold Map_values, Map_keys. rewrite map_map.
  apply map_ext_in. intros [k v] Hin. simpl.
  symmetry. now apply (coherent_keys V key m H).
Qed.

(** X6. The file never lists an id twice.  Whatever file the back end
    loaded and whatever feeds it merged since, the array it writes holds
    no two feeds of the same id, and no feed in it holds two articles of
    the same id. *)
Theorem saved_ids_are_unique
  (rawFeedList : list RawFeed.t) (newFeeds : list NewFeed.t) :
  NoDup (map RawFeed.id (save (merge_all (load rawFeedList) newFeeds))) /\
  Forall (fun rawFeed => NoDup (map RawArticle.id (RawFeed.articles rawFeed)))
         (save (merge_all (load rawFeedList) newFeeds)).
Proof.
  pose proof (merge_all_store_wf newFeeds _ (load_store_wf rawFeedList))
    as [Hwf Harts].
  pose proof (merge_all_coherent newFeeds _ (load_coherent rawFeedList))
    as Hco.
  set (feeds := merge_all (load rawFeedList) newFeeds) in *.
  assert (Hids : forallb (fun kv => key_eqb (fst kv) (Feed.id (snd kv)))
                         feeds = true).
  { rewrite forallb_forall. intros kv Hin.
    unfold store_coherent in Hco. rewrite forallb_forall in Hco.
    specialize (Hco kv Hin). now apply andb_true_iff in Hco as [H _]. }
  split.
  - unfold save. rewrite map_map. cbn [RawFeed.id].
    unfold Map_wf in Hwf.
    rewrite <- (coherent_ids _ Feed.id feeds Hids) in Hwf. exact Hwf.
  - unfold save. rewrite Forall_forall. intros rawFeed Hin.
    apply in_map_iff in Hin as (feed & <- & Hin). cbn [RawFeed.articles].
    unfold Map_values in Hin. apply in_map_iff in Hin as ([k f] & <- & Hin).
    simpl. rewrite map_map. cbn [stringify_article RawArticle.id].
    rewrite Forall_forall in Harts. specialize (Harts _ Hin). simpl in Harts.
    unfold store_coherent in Hco. rewrite forallb_forall in Hco.
    specialize (Hco _ Hin). apply andb_true_iff in Hco as [_ Hco].
    simpl in Hco.
    change (map (fun x => Article.id x) (Map_values (Feed.articles f)))
      with (map Article.id (Map_values (Feed.articles f))).
    rewrite (coherent_ids _ Article.id _ Hco). exact Harts.
Qed.

(** ** Loading *)

Lemma find_app_last (A : Type) (p : A -> bool) (l : list A) (x : A) :
  find p (l ++ [x]) =
  match find p l with
  | Some y => Some y
  | None => if p x then Some x else None
  end.
Proof.
  induction l as [|a l IH]; simpl; [reflexivity|].
  destruct (p a); auto.
Qed.

Section LoadFold.
Variables R V : Type.
Variable key : R -> Key.
Variable build : R -> V.

Lemma fold_Map_set_last (l : list R) :
  forall (acc : JsMap V) k,
    Map_get k (fold_left (fun m r => Map_set (key r) (build r) m) l acc) =
    match find (fun r => key_eqb k (key r)) (rev l) with
    | Some r => Some (build r)
    | None => Map_get k acc
    end.
Proof.
  induction l as [|r l IH]; simpl; intros acc k; [reflexivity|].
  rewrite IH, find_app_last.
  destruct (find (fun r0 => key_eqb k (key r0)) (rev l)); [reflexivity|].
  rewrite Map_get_set. destruct (key_eqb k (key r)); reflexivity.
Qed.

End LoadFold.

(** X7. Loading lets the last record win: the store binds an id to the
    feed built from the last record of that id in the file, and leaves
    an id no record has unbound; likewise each loaded feed binds an
    article id to the article built from its last record of that id. *)
Theorem load_last_record_wins :
  (forall rawFeedList k,
     Map_get k (load rawFeedList) =
     option_map load_feed
       (find (fun rawFeed => key_eqb k (RawFeed.id rawFeed))
             (rev rawFeedList))) /\
  (forall rawArticles x,
     Map_get x (load_articles rawArticles) =
     option_map load_article
       (find (fun rawArticle => key_eqb x (RawArticle.id rawArticle))
             (rev rawArticles))).
Proof.
  split.
  - intros rawFeedList k.
    assert (E : load rawFeedList =
                fold_left (fun m r => Map_set (RawFeed.id r) (load_feed r) m)
                          rawFeedList []) by reflexivity.
    rewrite E, fold_Map_set_last.
    destruct (find _ _); reflexivity.
  - intros rawArticles x.
    assert (E : load_articles rawArticles =
                fold_left (fun m r =>
                             Map_set (RawArticle.id r) (load_article r) m)
                          rawArticles []) by reflexivity.
    rewrite E, fold_Map_set_last.
    destruct (find _ _); reflexivity.
Qed.

(** X8. What the next start finds.  A store the back end reached (loaded
    from any file, then merged into) is loaded back from the file it
    writes with every feed and every article under the key and at the
    place it had.  A feed comes back with its title, description, link
    and id, and an article with its title, link and id; a feed's updated
    and an article's published come back as they were, the epoch
    standing for an Invalid Date; and every article's updated comes back
    as its published does, whatever it was. *)
Theorem reload_of_running_store
  (rawFeedList : list RawFeed.t) (newFeeds : list NewFeed.t) :
  load (save (merge_all (load rawFeedList) newFeeds)) =
  map (fun kv =>
         (fst kv,
          {| Feed.title := Feed.title (snd kv);
             Feed.description := Feed.description (snd kv);
             Feed.link := Feed.link (snd kv);
             Feed.id := Feed.id (snd kv);
             Feed.articles :=
               map (fun xa =>
                      (fst xa,
                       {| Article.title := Article.title (snd xa);
                          Article.link := Article.link (snd xa);
                          Article.id := Article.id (snd xa);
                          Article.published :=
                            Date_read_back (Article.published (snd xa));
                          Article.updated :=
                            Date_read_back (Article.published (snd xa)) |}))
                   (Feed.articles (snd kv));
             Feed.updated := Date_read_back (Feed.updated (snd kv)) |}))
      (merge_all (load rawFeedList) newFeeds).
Proof.
  rewrite load_save.
  - apply map_ext. intros [k feed]. cbn [fst snd]. f_equal.
    unfold reload_feed. f_equal.
    + apply map_ext. intros [x article]. cbn [fst snd]. f_equal.
      unfold reload_article, load_article, stringify_article.
      cbn [RawArticle.title RawArticle.link RawArticle.id
           RawArticle.published].
      destruct (Article.published article); reflexivity.
    + destruct (Feed.updated feed); reflexivity.
  - apply merge_all_store_wf, load_store_wf.
  - apply merge_all_coherent, load_coherent.
Qed.

(** X9. The round trip is exact on a store without edits: when every
    date of a store the back end reached is valid and no article has an
    updated time other than its published time, loading the file it
    writes gives the store back, order included. *)
Theorem round_trip_without_edits
  (rawFeedList : list RawFeed.t) (newFeeds : list NewFeed.t) :
  store_unedited (merge_all (load rawFeedList) newFeeds) ->
  load (save (merge_all (load rawFeedList) newFeeds)) =
  merge_all (load rawFeedList) newFeeds.
Proof.
  intros Hun. apply load_save_unedited; [| |exact Hun].
  - apply merge_all_store_wf, load_store_wf.
  - apply merge_all_coherent, load_coherent.
Qed.

Lemma round_trip_without_edits_witness :
  load (save (merge_all (load (save blog_store)) [])) =
  merge_all (load (save blog_store)) [].
Proof.
  apply (round_trip_without_edits (save blog_store) []).
  unfold store_unedited, valid_date. cbn.
  repeat first [reflexivity | econstructor].
Defined.

(** ** The parsing pass *)

(** X10. A failed download costs nothing and yields nothing: the feeds
    of a pass are those of its downloaded texts alone, one feed for each
    text in order, as if the failed downloads had not been in the
    list. *)
Theorem newFeeds_skip_failed_downloads
  (host : Host) (rawFeeds : list RawText) (n : nat) :
  newFeeds_from (filter is_Text rawFeeds) n = newFeeds_from rawFeeds n /\
  List.length (newFeeds_from rawFeeds n) =
  List.length (filter is_Text rawFeeds).
Proof.
  revert n. induction rawFeeds as [|raw rawFeeds IH]; intros n;
    [split; reflexivity|].
  destruct raw as [|url parsed]; cbn [filter is_Text newFeeds_from].
  - apply IH.
  - destruct (normalise url parsed n) as [feed n'].
    destruct (IH n') as [E L]. cbn [List.length]. split; congruence.
Qed.

Section MoreNormaliseFacts.
Context {host : Host}.

(** X11. The identity of an RSS feed.  Whatever else the document holds
    or lacks, the id of the feed a parsed RSS document is normalised to
    is its link, as a string.  The link is the parsed channel link when
    the text of the channel's [link] is a non-empty string (or [true]);
    it is the source URL when the channel has no [link] or the text is
    missing, empty, the number 0 or [false]; and link and id are both
    unset when the text does not parse as a URL, as no other number
    does, or when there is no channel. *)
Theorem rss_feed_identity url x r n :
  rss x = Some r ->
  NewFeed.link (fst (normalise url (Some x) n)) =
    match r with
    | None => None
    | Some ch =>
        match Rss.link ch with
        | None => Some url
        | Some node =>
            match hash_text node with
            | None => Some url
            | Some (JsString text) =>
                if String.eqb text EmptyString then Some url
                else URL_href text
            | Some (JsNumber k) =>
                if Number_is_zero k then Some url else None
            | Some (JsBoolean b) =>
                if b then URL_href "true" else Some url
            end
        end
    end /\
  NewFeed.id (fst (normalise url (Some x) n)) =
  option_map JsString (NewFeed.link (fst (normalise url (Some x) n))).
Proof.
  intros Hrss. unfold normalise, try_body. rewrite Hrss.
  destruct r as [ch|]; [|split; reflexivity].
  unfold rss_branch, bind, assign, ret, throw, new_URL_href.
  destruct (Rss.title ch), (Rss.description ch); cbn;
    (destruct (Rss.link ch) as [node|];
     [destruct (hash_text node) as [[text|k|[|]]|]; cbn;
      [destruct (String.eqb text EmptyString); cbn;
       [|destruct (URL_href text); cbn]
      |destruct (Number_is_zero k); cbn
      |destruct (URL_href "true"); cbn
      | | ]|]);
    cbn;
    (destruct (Rss.items ch) as [items|];
     [rewrite ?Array_map_rss; cbn;
      try destruct (forallb rss_link_parses items); cbn;
      try destruct (Rss.lastBuildDate ch); try destruct (Rss.pubDate ch)
     |]);
    split; reflexivity.
Qed.

Lemma atom_article_emits entry w :
  atom_article entry w =
  (if atom_entry_ok entry then Some (atom_emitted entry (ticks w)) else None,
   tick2 w).
Proof.
  unfold atom_article, atom_entry_ok, atom_emitted, atom_link_parses,
    atom_link_text, new_URL_href, bind, Date_now, ret, throw, tick2.
  destruct entry as [t l i p u]; cbn.
  destruct l as [nodes|]; cbn.
  - destruct (match find_rel "alternate" nodes with
              | Some node => Some node
              | None => hd_error nodes
              end) as [node|]; cbn.
    + destruct (URL_of _); cbn; [|reflexivity].
      destruct p, u; reflexivity.
    + destruct p, u; reflexivity.
  - destruct p, u; reflexivity.
Qed.

Lemma Array_map_atom entries :
  forall w,
    Array_map atom_article entries w =
    (if forallb atom_entry_ok entries
     then Some (atom_emitted_all entries (ticks w)) else None,
     {| ticks := atom_ticks entries (ticks w); current := current w |}).
Proof.
  induction entries as [|entry entries IH]; intros w.
  - destruct w; reflexivity.
  - cbn [Array_map forallb atom_emitted_all atom_ticks]. unfold bind at 1.
    rewrite atom_article_emits.
    destruct (atom_entry_ok entry); cbn [andb]; [|reflexivity].
    unfold bind at 1. rewrite IH. cbn [tick2 ticks current].
    destruct (forallb atom_entry_ok entries); reflexivity.
Qed.

(** X12. An Atom feed needs a self link.  The feed a parsed Atom document
    with entries is normalised to has its entries, one article for each
    in order, exactly when the feed either has no [link] element or has
    several with a [rel="self"] one whose href parses, and every entry's
    callback returns; in every other case, a single [link] element
    included, it has no article.  Its id is the text of [id] in the
    first case and unset when the feed's link made the block throw. *)
Theorem atom_feed_needs_self_link url x atom entries n :
  rss x = None -> feed x = Some atom -> Atom.entries atom = Some entries ->
  NewFeed.articles (fst (normalise url (Some x) n)) =
    (if atom_feed_link_ok url atom && forallb atom_entry_ok entries
     then atom_emitted_all entries (S n) else []) /\
  NewFeed.id (fst (normalise url (Some x) n)) =
    (if atom_feed_link_ok url atom
     then match Atom.id atom with
          | Some node => hash_text node
          | None => None
          end
     else None).
Proof.
  intros Hrss Hfeed Hentries. unfold normalise, try_body.
  rewrite Hrss, Hfeed.
  unfold atom_branch, atom_feed_link_ok. rewrite Hentries.
  unfold bind, assign, ret, throw, new_URL_href.
  destruct (Atom.title atom), (Atom.subtitle atom); cbn;
    (destruct (Atom.link atom) as [[node|nodes]|];
     [ | destruct (find_rel "self" nodes) as [node|];
         [cbn [URL_of]; destruct (URL_href _)|] | ]);
    cbn;
    try (destruct (Atom.id atom); cbn);
    rewrite ?Array_map_atom; cbn;
    try destruct (forallb atom_entry_ok entries); cbn;
    try (destruct (Atom.updated atom) as [u|];
         [destruct (truthy (hash_text u))|]);
    split; reflexivity.
Qed.

End MoreNormaliseFacts.

(** A channel whose link spells the number 0 is known by the URL it was
    fetched from. *)
Lemma rss_feed_identity_witness :
  NewFeed.link (fst (@normalise plain_host "https://x/feed"
                       (Some rss_doc_link_zero) 0)) =
    Some "https://x/feed" /\
  NewFeed.id (fst (@normalise plain_host "https://x/feed"
                     (Some rss_doc_link_zero) 0)) =
  option_map JsString
    (NewFeed.link (fst (@normalise plain_host "https://x/feed"
                          (Some rss_doc_link_zero) 0))).
Proof.
  exact (@rss_feed_identity plain_host "https://x/feed" rss_doc_link_zero
           _ 0 eq_refl).
Defined.

(** An Atom document without a feed link, with one entry that has both
    dates. *)
Lemma atom_feed_needs_self_link_witness :
  List.length
    (NewFeed.articles
       (fst (@normalise plain_host "https://x/atom"
               (Some (atom_doc [atom_entry_of (Some "2006-01-02T15:04:05Z")
                                              (Some "2006-01-03T15:04:05Z")]))
               0))) = 1%nat /\
  NewFeed.id
    (fst (@normalise plain_host "https://x/atom"
            (Some (atom_doc [atom_entry_of (Some "2006-01-02T15:04:05Z")
                                           (Some "2006-01-03T15:04:05Z")]))
            0)) = Some (JsString "urn:blog").
Proof.
  destruct (@atom_feed_needs_self_link plain_host "https://x/atom"
              (atom_doc [atom_entry_of (Some "2006-01-02T15:04:05Z")
                                       (Some "2006-01-03T15:04:05Z")])
              _ _ 0 eq_refl eq_refl eq_refl) as [Harts Hid].
  rewrite Harts, Hid. split; reflexivity.
Defined.

(** ** The Go loop *)

Lemma Go_ingest_unproductive time_Parse time_Now feeds k url resp :
  Go_yields_feed resp = false ->
  Go.ingest time_Parse time_Now feeds k url resp = (feeds, k).
Proof.
  destruct resp as [| |root r a]; simpl; try reflexivity.
  destruct (String.eqb root "rss"); [destruct r; [discriminate|reflexivity]|].
  destruct (String.eqb root "feed"); [destruct a; [discriminate|]|];
    reflexivity.
Qed.

Lemma Go_ingest_productive time_Parse time_Now feeds k url resp :
  Go_yields_feed resp = true ->
  exists feed k',
    Go.ingest time_Parse time_Now feeds k url resp = (feeds ++ [feed], k').
Proof.
  destruct resp as [| |root r a]; simpl; try discriminate.
  destruct (String.eqb root "rss"); [destruct r; [eauto|discriminate]|].
  destruct (String.eqb root "feed"); [destruct a; [eauto|discriminate]|].
  discriminate.
Qed.

(** X13. The Go loop isolates failures per URL.  A URL whose request
    fails, whose status is not 200, whose document has another root than
    [rss] or [feed], or whose document does not decode, adds no feed and
    changes nothing for the other URLs: the loop gives the feeds it
    would give without these URLs, one for each remaining URL. *)
Theorem Go_loop_isolates_failures
  (time_Parse : string -> string -> option Go.Time)
  (time_Now : nat -> Go.Time) (fetched : list (string * Go.Response)) :
  Go_main_loop time_Parse time_Now
    (filter (fun fetch => Go_yields_feed (snd fetch)) fetched) =
  Go_main_loop time_Parse time_Now fetched /\
  List.length (fst (Go_main_loop time_Parse time_Now fetched)) =
  List.length (filter (fun fetch => Go_yields_feed (snd fetch)) fetched).
Proof.
  unfold Go_main_loop.
  assert (G : forall l state,
    fold_left (fun state fetch =>
                 Go.ingest time_Parse time_Now (fst state) (snd state)
                           (fst fetch) (snd fetch))
              (filter (fun fetch => Go_yields_feed (snd fetch)) l) state =
    fold_left (fun state fetch =>
                 Go.ingest time_Parse time_Now (fst state) (snd state)
                           (fst fetch) (snd fetch)) l state /\
    List.length (fst (fold_left (fun state fetch =>
                 Go.ingest time_Parse time_Now (fst state) (snd state)
                           (fst fetch) (snd fetch)) l state)) =
    (List.length (fst state) +
     List.length (filter (fun fetch => Go_yields_feed (snd fetch)) l))%nat).
  { induction l as [|[url resp] l IH]; intros [feeds k]; cbn [filter snd fst].
    - split; [reflexivity | simpl; lia].
    - destruct (Go_yields_feed resp) eqn:E.
      + cbn [fold_left fst snd].
        destruct (Go_ingest_productive time_Parse time_Now feeds k url resp E)
          as (feed & k' & ->).
        destruct (IH (feeds ++ [feed], k')) as [E1 E2].
        split; [exact E1|]. rewrite E2. cbn [fst List.length].
        rewrite length_app. simpl. lia.
      + cbn [fold_left fst snd].
        rewrite (Go_ingest_unproductive _ _ _ _ _ _ E). apply IH. }
  destruct (G fetched ([], 0%nat)) as [E1 E2]. split; [exact E1|].
  rewrite E2. reflexivity.
Qed.

Lemma Go_rss_entries_mirror time_Parse time_Now items :
  forall k,
    map Go.Entry.Title (Go.rss_entries time_Parse time_Now items k) =
      map Go.RssItem.Title items /\
    map Go.Entry.Link (Go.rss_entries time_Parse time_Now items k) =
      map Go.RssItem.Link items /\
    map Go.Entry.Id (Go.rss_entries time_Parse time_Now items k) =
      map (fun item => if String.eqb (Go.RssItem.Guid item) ""
                       then Go.RssItem.Link item else Go.RssItem.Guid item)
          items /\
    Forall (fun entry => Go.Entry.Updated entry = Go.Entry.Published entry)
           (Go.rss_entries time_Parse time_Now items k).
Proof.
  induction items as [|item items IH]; intros k; simpl.
  - repeat split; constructor.
  - destruct (IH (S k)) as (Ht & Hl & Hi & Hu).
    rewrite Ht, Hl, Hi. repeat split.
    + destruct (String.eqb (Go.RssItem.Guid item) ""); reflexivity.
    + constructor; [reflexivity | exact Hu].
Qed.

(** X14. The Go normaliser keeps every RSS item.  The feed it builds
    from a decoded RSS document has one entry for each item, in order,
    with the item's title and link, the guid as id (the link when the
    guid is empty), and updated equal to published; the feed's id is its
    link. *)
Theorem Go_rss_feed_mirrors_items
  (time_Parse : string -> string -> option Go.Time)
  (time_Now : nat -> Go.Time) (url : string) (rssFeed : Go.RssFeed.t)
  (k : nat) :
  map Go.Entry.Title
      (Go.Feed.Entries (Go.feed_of_rss time_Parse time_Now url rssFeed k)) =
    map Go.RssItem.Title (Go.RssFeed.Items rssFeed) /\
  map Go.Entry.Link
      (Go.Feed.Entries (Go.feed_of_rss time_Parse time_Now url rssFeed k)) =
    map Go.RssItem.Link (Go.RssFeed.Items rssFeed) /\
  map Go.Entry.Id
      (Go.Feed.Entries (Go.feed_of_rss time_Parse time_Now url rssFeed k)) =
    map (fun item => if String.eqb (Go.RssItem.Guid item) ""
                     then Go.RssItem.Link item else Go.RssItem.Guid item)
        (Go.RssFeed.Items rssFeed) /\
  Forall (fun entry => Go.Entry.Updated entry = Go.Entry.Published entry)
         (Go.Feed.Entries (Go.feed_of_rss time_Parse time_Now url rssFeed k))
  /\
  Go.Feed.Id (Go.feed_of_rss time_Parse time_Now url rssFeed k) =
  Go.Feed.Link (Go.feed_of_rss time_Parse time_Now url rssFeed k).
Proof.
  cbn [Go.feed_of_rss Go.Feed.Entries Go.Feed.Id Go.Feed.Link].
  destruct (Go_rss_entries_mirror time_Parse time_Now
              (Go.RssFeed.Items rssFeed) (S k)) as (Ht & Hl & Hi & Hu).
  repeat split; assumption.
Qed.

(** ** Link selection in an Atom entry *)

Lemma find_rel_first rel pre node post :
  at_rel node = Some rel ->
  (forall n, In n pre -> at_rel n <> Some rel) ->
  find_rel rel (pre ++ node :: post) = Some node.
Proof.
  intros Hnode Hpre. unfold find_rel.
  induction pre as [|n pre IH]; simpl.
  - rewrite Hnode, String.eqb_refl. reflexivity.
  - destruct (at_rel n) as [r|] eqn:E.
    + destruct (String.eqb_spec r rel) as [->|_].
      * exfalso. apply (Hpre n); [now left | exact E].
      * apply IH. intros m Hm. apply Hpre. now right.
    + apply IH. intros m Hm. apply Hpre. now right.
Qed.

Lemma find_rel_none rel nodes :
  (forall n, In n nodes -> at_rel n <> Some rel) ->
  find_rel rel nodes = None.
Proof.
  intros H. unfold find_rel. induction nodes as [|n nodes IH]; simpl;
    [reflexivity|].
  destruct (at_rel n) as [r|] eqn:E.
  - destruct (String.eqb_spec r rel) as [->|_].
    + exfalso. apply (H n); [now left | exact E].
    + apply IH. intros m Hm. apply H. now right.
  - apply IH. intros m Hm. apply H. now right.
Qed.

(** X15. Link selection in an Atom entry.  When the callback returns for
    an entry with link elements, the article's link is the parsed URL of
    the first link whose [rel] is "alternate", wherever it stands among
    the links; when no link has that relation it is the parsed URL of
    the first link.  The URL is made of the link's href, or of its text
    when it has no href. *)
Theorem atom_link_prefers_alternate
  (host : Host) (entry : Atom.entry) (nodes : list XmlNode) (w : World) :
  Atom.entry_link entry = Some nodes ->
  atom_entry_ok entry = true ->
  exists article,
    atom_article entry w = (Some article, tick2 w) /\
    (forall pre node post,
       nodes = pre ++ node :: post ->
       at_rel node = Some "alternate" ->
       (forall n, In n pre -> at_rel n <> Some "alternate") ->
       Article.link article =
       URL_of (link_text_of node)) /\
    (forall node rest,
       nodes = node :: rest ->
       (forall n, In n nodes -> at_rel n <> Some "alternate") ->
       Article.link article =
       URL_of (link_text_of node)).
Proof.
  intros Hlinks Hok. eexists. split.
  - rewrite atom_article_emits, Hok. reflexivity.
  - unfold atom_emitted, atom_link_text. cbn [Article.link].
    rewrite Hlinks. split.
    + intros pre node post -> Hrel Hpre.
      now rewrite (find_rel_first _ _ _ _ Hrel Hpre).
    + intros node rest Hnodes Hnone.
      rewrite (find_rel_none _ _ Hnone), Hnodes. reflexivity.
Qed.

(** An entry with a self link and then an alternate one. *)
Lemma atom_link_prefers_alternate_witness :
  exists article,
    @atom_article plain_host
      {| Atom.entry_title := None;
         Atom.entry_link :=
           Some [ {| hash_text := None; at_rel := Some "self";
                     at_href := Some "https://x/a" |};
                  {| hash_text := None; at_rel := Some "alternate";
                     at_href := Some "https://x/b" |} ];
         Atom.entry_id := None;
         Atom.entry_published := None;
         Atom.entry_updated := None |}
      {| ticks := 1; current := blog_fetched |} =
      (Some article, {| ticks := 3; current := blog_fetched |}) /\
    Article.link article = Some "https://x/b".
Proof.
  destruct (atom_link_prefers_alternate plain_host
              {| Atom.entry_title := None;
                 Atom.entry_link :=
                   Some [ {| hash_text := None; at_rel := Some "self";
                             at_href := Some "https://x/a" |};
                          {| hash_text := None; at_rel := Some "alternate";
                             at_href := Some "https://x/b" |} ];
                 Atom.entry_id := None;
                 Atom.entry_published := None;
                 Atom.entry_updated := None |}
              _ {| ticks := 1; current := blog_fetched |}
              eq_refl eq_refl) as (article & Hrun & Halt & _).
  exists article. split; [exact Hrun|].
  rewrite (Halt [ {| hash_text := None; at_rel := Some "self";
                     at_href := Some "https://x/a" |} ]
                {| hash_text := None; at_rel := Some "alternate";
                   at_href := Some "https://x/b" |} [] eq_refl eq_refl).
  - reflexivity.
  - intros n [<-|[]]. discriminate.
Defined.

(** ** The set of read articles *)

Lemma Set_has_In x s : Page.Set_has x s = true <-> In x s.
Proof.
  unfold Page.Set_has. rewrite existsb_exists. split.
  - intros (y & Hin & Heq). apply String.eqb_eq in Heq. now subst.
  - intros Hin. exists x. split; [exact Hin | apply String.eqb_refl].
Qed.

Lemma Set_add_NoDup x s : NoDup s -> NoDup (Page.Set_add x s).
Proof.
  intros Hnd. unfold Page.Set_add.
  destruct (Page.Set_has x s) eqn:E; [exact Hnd|].
  apply NoDup_app; auto.
  - constructor; [intros [] | constructor].
  - intros y Hy [<-|[]]. apply Set_has_In in Hy. congruence.
Qed.

Lemma Set_add_has x s : Page.Set_has x (Page.Set_add x s) = true.
Proof.
  unfold Page.Set_add. destruct (Page.Set_has x s) eqn:E; [exact E|].
  apply Set_has_In, in_or_app. right. now left.
Qed.

Lemma Set_add_keeps x y s :
  Page.Set_has y s = true -> Page.Set_has y (Page.Set_add x s) = true.
Proof.
  intros H. unfold Page.Set_add. destruct (Page.Set_has x s); [exact H|].
  apply Set_has_In, in_or_app. left. now apply Set_has_In.
Qed.

Lemma Set_rebuild values :
  forall acc,
    NoDup (acc ++ values) ->
    fold_left (fun s x => Page.Set_add x s) values acc = acc ++ values.
Proof.
  induction values as [|x values IH]; simpl; intros acc Hnd.
  - now rewrite app_nil_r.
  - assert (Hout : Page.Set_has x acc = false).
    { destruct (Page.Set_has x acc) eqn:E; [|reflexivity].
      apply Set_has_In in E. apply NoDup_remove_2 in Hnd.
      exfalso. apply Hnd, in_or_app. now left. }
    unfold Page.Set_add at 2. rewrite Hout.
    rewrite IH; rewrite <- app_assoc; [reflexivity | exact Hnd].
Qed.

Lemma new_Set_NoDup stored : NoDup (Page.new_Set stored).
Proof.
  destruct stored as [values|]; simpl; [|constructor].
  assert (G : forall l acc, NoDup acc ->
              NoDup (fold_left (fun s x => Page.Set_add x s) l acc)).
  { induction l as [|x l IH]; simpl; intros acc H; [exact H|].
    apply IH. now apply Set_add_NoDup. }
  apply G. constructor.
Qed.

Lemma read_after_facts ids :
  forall s,
    NoDup s ->
    NoDup (fold_left (fun s id => fst (Page.save_read id s)) ids s) /\
    (forall id, In id ids \/ Page.Set_has id s = true ->
       Page.Set_has id
         (fold_left (fun s id => fst (Page.save_read id s)) ids s) = true).
Proof.
  induction ids as [|i ids IH]; simpl; intros s Hnd.
  - split; [exact Hnd|]. intros id [[]|H]; exact H.
  - destruct (IH (Page.Set_add i s) (Set_add_NoDup i s Hnd)) as [H1 H2].
    split; [exact H1|].
    intros id [[<-|Hin]|Hs]; apply H2.
    + right. apply Set_add_has.
    + now left.
    + right. now apply Set_add_keeps.
Qed.

(** X16. The read marks survive a reload.  However the page found its
    storage and whatever articles were marked since, every marked id is
    in the set, marking an id again changes neither the set nor what is
    stored, and the set built from the stored array on the next visit is
    the same set, in the same order. *)
Theorem read_marks_round_trip
  (stored : option (list string)) (ids : list string) :
  (forall id, In id ids ->
     Page.Set_has id (Page.read_after stored ids) = true) /\
  (forall id, In id ids ->
     Page.save_read id (Page.read_after stored ids) =
     (Page.read_after stored ids, Page.read_after stored ids)) /\
  (forall id,
     Page.new_Set
       (Some (snd (Page.save_read id (Page.read_after stored ids)))) =
     fst (Page.save_read id (Page.read_after stored ids))).
Proof.
  unfold Page.read_after.
  destruct (read_after_facts ids (Page.new_Set stored)
              (new_Set_NoDup stored)) as [Hnd Hhas].
  split; [|split].
  - intros id Hin. apply Hhas. now left.
  - intros id Hin. unfold Page.save_read, Page.Set_add.
    rewrite Hhas by now left. reflexivity.
  - intros id. unfold Page.save_read. cbn [fst snd Page.new_Set].
    apply (Set_rebuild _ []). simpl. now apply Set_add_NoDup.
Qed.

(** ** Sorting *)

Section SortFacts.
Variable A : Type.
Variable comparefn : A -> A -> option Z.

Lemma sort_insert_perm x l :
  Permutation (Page.sort_insert comparefn x l) (x :: l).
Proof.
  induction l as [|y l IH]; simpl; [reflexivity|].
  destruct (Page.SortCompare (comparefn x y) <=? 0); [reflexivity|].
  rewrite IH. apply perm_swap.
Qed.

Lemma Array_sort_perm l : Permutation (Page.Array_sort comparefn l) l.
Proof.
  induction l as [|x l IH]; simpl; [reflexivity|].
  rewrite sort_insert_perm. now constructor.
Qed.

(** Where the comparator never asks for a swap the array stays as it
    is. *)
Lemma Array_sort_fixed l :
  (forall x y, Page.SortCompare (comparefn x y) <= 0) ->
  Page.Array_sort comparefn l = l.
Proof.
  intros H. induction l as [|x l IH]; simpl; [reflexivity|].
  rewrite IH. destruct l as [|y l]; simpl; [reflexivity|].
  destruct (Z.leb_spec (Page.SortCompare (comparefn x y)) 0);
    [reflexivity|].
  specialize (H x y). lia.
Qed.

Variable P : A -> Prop.
Variable before : A -> A -> Prop.
Hypothesis before_yes :
  forall a b, P a -> P b ->
              Page.SortCompare (comparefn a b) <= 0 -> before a b.
Hypothesis before_no :
  forall a b, P a -> P b ->
              ~ Page.SortCompare (comparefn a b) <= 0 -> before b a.
Hypothesis before_trans :
  forall a b c, P a -> P b -> P c ->
                before a b -> before b c -> before a c.

Lemma sort_insert_sorted x l :
  P x -> Forall P l -> StronglySorted before l ->
  StronglySorted before (Page.sort_insert comparefn x l).
Proof.
  intros Hx Hl Hs. induction l as [|y l IH]; simpl.
  - constructor; constructor.
  - apply StronglySorted_inv in Hs as [Hs Hy].
    apply Forall_cons_iff in Hl as [Py Pl].
    destruct (Z.leb_spec (Page.SortCompare (comparefn x y)) 0) as [Hle|Hgt].
    + assert (Hxy : before x y) by (apply before_yes; assumption).
      constructor; [constructor; assumption|].
      constructor; [exact Hxy|].
      rewrite Forall_forall in *. intros z Hz.
      apply (before_trans x y z); auto.
    + constructor; [now apply IH|].
      refine (Permutation_Forall (Permutation_sym (sort_insert_perm x l)) _).
      constructor; [|exact Hy]. apply before_no; auto. lia.
Qed.

Lemma Array_sort_sorted l :
  Forall P l -> StronglySorted before (Page.Array_sort comparefn l).
Proof.
  induction l as [|x l IH]; simpl; intros Hl; [constructor|].
  apply Forall_cons_iff in Hl as [Px Pl].
  apply sort_insert_sorted; auto.
  exact (Permutation_Forall (Permutation_sym (Array_sort_perm l)) Pl).
Qed.

End SortFacts.

(** ** Throwing callbacks *)

Section MapThrow.
Variables A B : Type.
Variable f : A -> option B.

Lemma map_throw_None l :
  Page.map_throw f l = None <-> exists a, In a l /\ f a = None.
Proof.
  induction l as [|a l IH]; simpl.
  - split; [discriminate | intros (a & [] & _)].
  - destruct (f a) as [b|] eqn:E.
    + destruct (Page.map_throw f l) as [bs|].
      * split; [discriminate|].
        intros (a' & [<-|Hin] & Ha'); [congruence|].
        assert (Hnone : Some bs = None) by (apply IH; eauto).
        discriminate.
      * split; [|reflexivity]. intros _.
        destruct (proj1 IH eq_refl) as (a' & Hin & Ha'). eauto.
    + split; [|reflexivity]. intros _. exists a. auto.
Qed.

Lemma map_throw_Forall (Q : B -> Prop) (R : A -> Prop) l bs :
  (forall a b, R a -> f a = Some b -> Q b) ->
  Forall R l -> Page.map_throw f l = Some bs -> Forall Q bs.
Proof.
  intros H. revert bs. induction l as [|a l IH]; simpl; intros bs Hl Hbs.
  - injection Hbs as <-. constructor.
  - apply Forall_cons_iff in Hl as [Ra Rl].
    destruct (f a) as [b|] eqn:E; [|discriminate].
    destruct (Page.map_throw f l) as [bs'|]; [|discriminate].
    injection Hbs as <-. constructor; eauto.
Qed.

Lemma map_throw_total (g : A -> B) l :
  (forall a, f a = Some (g a)) -> Page.map_throw f l = Some (map g l).
Proof.
  intros H. induction l as [|a l IH]; simpl; [reflexivity|].
  now rewrite H, IH.
Qed.

End MapThrow.

(** ** The list of articles *)

Lemma saved_articles_dated feeds : Page.dated (Page.articles (save feeds)).
Proof.
  unfold Page.dated, Page.articles. rewrite Forall_forall.
  intros item Hin. apply in_flat_map in Hin as (rawFeed & Hfeed & Hin).
  apply in_map_iff in Hin as (rawArticle & <- & Hin).
  cbn [Page.Item.published].
  unfold save in Hfeed. apply in_map_iff in Hfeed as (feed & <- & _).
  cbn [RawFeed.articles] in Hin.
  apply in_map_iff in Hin as (article & <- & _).
  cbn [stringify_article RawArticle.published].
  destruct (Article.published article); simpl; eauto.
Qed.

Lemma filter_all (A : Type) (p : A -> bool) (l : list A) :
  (forall a, In a l -> p a = true) -> filter p l = l.
Proof.
  induction l as [|a l IH]; simpl; intros H; [reflexivity|].
  rewrite (H a) by now left. f_equal. apply IH. intros b Hb. apply H.
  now right.
Qed.

Lemma Forall_filter_keep (A : Type) (P : A -> Prop) (p : A -> bool) l :
  Forall P l -> Forall P (filter p l).
Proof.
  rewrite !Forall_forall. intros H a Ha. apply filter_In in Ha as [Ha _].
  auto.
Qed.

Section ListingFacts.
Variable replace_counting : list string -> string -> string * nat.

Lemma mark_item_None terms item :
  Page.mark_item replace_counting terms item = None <->
  terms <> [] /\ Page.item_untitled item = true.
Proof.
  unfold Page.mark_item, Page.item_untitled.
  destruct terms as [|t terms]; simpl.
  - split; [discriminate | intros [H _]; congruence].
  - destruct (Page.Item.title item), (Page.Item.author item);
      split; try discriminate; try (intros [_ H]; discriminate);
      intros _; split; congruence.
Qed.

Lemma mark_item_published terms item marked :
  Page.mark_item replace_counting terms item = Some marked ->
  Page.NewItem.published marked = Page.Item.published item.
Proof.
  unfold Page.mark_item.
  destruct (negb (Nat.eqb (List.length terms) 0)).
  - destruct (Page.Item.title item); [|discriminate].
    destruct (Page.Item.author item); [|discriminate].
    intros H. injection H as <-. reflexivity.
  - intros H. injection H as <-. reflexivity.
Qed.

Lemma mark_feed_None terms feed :
  Page.mark_feed replace_counting terms feed = None <->
  terms <> [] /\ Page.feed_untitled feed = true.
Proof.
  unfold Page.mark_feed, Page.feed_untitled.
  destruct terms as [|t terms]; simpl.
  - split; [discriminate | intros [H _]; congruence].
  - destruct (Page.PageFeed.title feed), (Page.PageFeed.description feed);
      split; try discriminate; try (intros [_ H]; discriminate);
      intros _; split; congruence.
Qed.

End ListingFacts.

(** The comparator of the articles orders dated items as
    [shown_before] says. *)
Lemma compare_articles_before a b :
  (exists x, Page.NewItem.published a = TimeValue x) ->
  (exists y, Page.NewItem.published b = TimeValue y) ->
  (Page.SortCompare (Page.compare_articles a b) <= 0 <->
   Page.shown_before a b).
Proof.
  intros [x Hx] [y Hy]. unfold Page.compare_articles, Page.shown_before.
  rewrite Hx, Hy.
  destruct (Nat.eqb_spec (Page.NewItem.title_matches a)
                         (Page.NewItem.title_matches b)) as [Et|Nt];
    simpl.
  - destruct (Nat.eqb_spec (Page.NewItem.author_matches a)
                           (Page.NewItem.author_matches b)) as [Ea|Na];
      simpl.
    + split.
      * intros H. right. split; [exact Et|]. right. split; [exact Ea|].
        exists x, y. repeat split; auto; lia.
      * intros [H|[_ [H|[_ (x' & y' & Hx' & Hy' & Hle)]]]]; try lia.
        injection Hx' as <-. injection Hy' as <-. lia.
    + split.
      * intros H. right. split; [exact Et|]. left. lia.
      * intros [H|[_ [H|[H _]]]]; lia.
  - split.
    + intros H. left. lia.
    + intros [H|[H _]]; lia.
Qed.

Lemma shown_before_total a b :
  (exists x, Page.NewItem.published a = TimeValue x) ->
  (exists y, Page.NewItem.published b = TimeValue y) ->
  ~ Page.shown_before a b -> Page.shown_before b a.
Proof.
  intros [x Hx] [y Hy] Hn. unfold Page.shown_before in *.
  destruct (Nat.lt_total (Page.NewItem.title_matches a)
                         (Page.NewItem.title_matches b)) as [H|[H|H]];
    [now left | | exfalso; apply Hn; now left].
  right. split; [now symmetry|].
  destruct (Nat.lt_total (Page.NewItem.author_matches a)
                         (Page.NewItem.author_matches b)) as [G|[G|G]];
    [now left | | exfalso; apply Hn; right; split; [exact H | now left]].
  right. split; [now symmetry|]. exists y, x. repeat split; auto.
  destruct (Z_le_gt_dec y x) as [Hle|Hgt]; [|lia].
  destruct (Z.eq_dec x y) as [->|Hne]; [lia|].
  exfalso. apply Hn. right. split; [exact H|]. right. split; [exact G|].
  exists x, y. repeat split; auto.
Qed.

Lemma shown_before_trans a b c :
  Page.shown_before a b -> Page.shown_before b c -> Page.shown_before a c.
Proof.
  unfold Page.shown_before.
  intros [H1|[E1 [H1|[F1 (x & y & Hx & Hy & Hle1)]]]]
         [H2|[E2 [H2|[F2 (y' & z & Hy' & Hz & Hle2)]]]];
    try (left; lia); try (right; split; [lia|]; left; lia).
  right. split; [lia|]. right. split; [lia|].
  exists x, z. repeat split; auto. rewrite Hy in Hy'. injection Hy' as <-.
  lia.
Qed.

(** X17. The list of articles, for any search.  On the file the back end
    writes, listing the articles throws exactly when the search box
    holds a term and some article or its feed has no title.  When it
    returns, the items shown are the marked articles that pass the
    threshold (as many title matches as there are terms, or as many
    author matches), each once, ordered by more title matches, then more
    author matches, then the later publication time. *)
Theorem listing_of_articles
  (replace_counting : list string -> string -> string * nat)
  (pieces : list string) (feeds : Store) :
  (Page.update_list_articles replace_counting pieces
     (Page.articles (save feeds)) = None <->
   Page.search_terms pieces <> [] /\
   existsb Page.item_untitled (Page.articles (save feeds)) = true) /\
  (forall shown,
     Page.update_list_articles replace_counting pieces
       (Page.articles (save feeds)) = Some shown ->
     StronglySorted Page.shown_before shown /\
     exists marked,
       Page.map_throw
         (Page.mark_item replace_counting (Page.search_terms pieces))
         (Page.articles (save feeds)) = Some marked /\
       Permutation shown
         (filter (Page.item_passes (Page.search_terms pieces)) marked)).
Proof.
  unfold Page.update_list_articles.
  set (terms := Page.search_terms pieces).
  set (items := Page.articles (save feeds)).
  split.
  - destruct (Page.map_throw (Page.mark_item replace_counting terms) items)
      as [marked|] eqn:E.
    + split; [discriminate|]. intros [Hterms Hex].
      apply existsb_exists in Hex as (item & Hin & Hun).
      assert (Hnone : Page.map_throw
                        (Page.mark_item replace_counting terms) items = None).
      { apply (proj2 (map_throw_None _ _
                        (Page.mark_item replace_counting terms) items)).
        exists item. split; [exact Hin|].
        apply mark_item_None. auto. }
      congruence.
    + split; [|reflexivity]. intros _.
      apply map_throw_None in E as (item & Hin & Hnone).
      apply mark_item_None in Hnone as [Hterms Hun].
      split; [exact Hterms|]. apply existsb_exists. eauto.
  - intros shown H.
    destruct (Page.map_throw (Page.mark_item replace_counting terms) items)
      as [marked|] eqn:E; [|discriminate].
    injection H as <-.
    assert (Hdated : Forall (fun m => exists x,
                               Page.NewItem.published m = TimeValue x)
                            marked).
    { apply (map_throw_Forall _ _
               (Page.mark_item replace_counting terms) _
               (fun item => exists ms, Page.Item.published item = TimeValue ms)
               items marked); [|apply saved_articles_dated|exact E].
      intros item m [ms Hms] Hm.
      rewrite (mark_item_published _ _ _ _ Hm). eauto. }
    split.
    + apply (Array_sort_sorted _ Page.compare_articles
               (fun m => exists x, Page.NewItem.published m = TimeValue x)).
      * intros a b Pa Pb Hle. now apply compare_articles_before.
      * intros a b Pa Pb Hn. apply shown_before_total; auto.
        intros Hab. apply Hn. now apply compare_articles_before.
      * intros a b c _ _ _. apply shown_before_trans.
      * now apply Forall_filter_keep.
    + exists marked. split; [reflexivity | apply Array_sort_perm].
Qed.

Lemma newer_of_shown_before a b :
  Page.NewItem.title_matches a = 0%nat ->
  Page.NewItem.author_matches a = 0%nat ->
  Page.NewItem.title_matches b = 0%nat ->
  Page.NewItem.author_matches b = 0%nat ->
  Page.shown_before a b -> Page.newer a b.
Proof.
  unfold Page.shown_before, Page.newer.
  intros -> -> -> -> [H|[_ [H|[_ H]]]]; [lia | lia | exact H].
Qed.

(** X18. With the search box empty, the page lists every article of the
    file: each article of each saved feed is shown once, unmarked, and
    the list runs from the latest publication time to the earliest.  It
    does not throw, whatever titles are missing. *)
Theorem empty_search_lists_every_article
  (replace_counting : list string -> string -> string * nat)
  (pieces : list string) (feeds : Store) :
  Page.search_terms pieces = [] ->
  exists shown,
    Page.update_list_articles replace_counting pieces
      (Page.articles (save feeds)) = Some shown /\
    Permutation shown (map Page.plain_item (Page.articles (save feeds))) /\
    StronglySorted Page.newer shown.
Proof.
  intros Hterms. unfold Page.update_list_articles. rewrite Hterms.
  rewrite (map_throw_total _ _ (Page.mark_item replace_counting [])
             Page.plain_item) by reflexivity.
  rewrite filter_all by reflexivity.
  eexists. split; [reflexivity|]. split; [apply Array_sort_perm|].
  apply (Array_sort_sorted _ Page.compare_articles
           (fun m => (exists x, Page.NewItem.published m = TimeValue x) /\
                     Page.NewItem.title_matches m = 0%nat /\
                     Page.NewItem.author_matches m = 0%nat)).
  - intros a b [Pa [Ta Aa]] [Pb [Tb Ab]] Hle.
    apply newer_of_shown_before; auto.
    now apply compare_articles_before.
  - intros a b [Pa [Ta Aa]] [Pb [Tb Ab]] Hn.
    apply newer_of_shown_before; auto.
    apply shown_before_total; auto.
    intros Hab. apply Hn. now apply compare_articles_before.
  - intros a b c _ _ _ (x & y & Hx & Hy & H1) (y' & z & Hy' & Hz & H2).
    exists x, z. repeat split; auto. rewrite Hy in Hy'.
    injection Hy' as <-. lia.
  - rewrite Forall_forall. intros m Hm.
    apply in_map_iff in Hm as (item & <- & Hin).
    pose proof (saved_articles_dated feeds) as Hd.
    unfold Page.dated in Hd. rewrite Forall_forall in Hd.
    split; [|split; reflexivity]. exact (Hd item Hin).
Qed.

(** The blog with its edited post, and the empty search box. *)
Lemma empty_search_lists_every_article_witness :
  exists shown,
    Page.update_list_articles (fun _ text => (text, 0%nat)) [""]
      (Page.articles (save edited_store)) = Some shown /\
    Permutation shown
      (map Page.plain_item (Page.articles (save edited_store))) /\
    StronglySorted Page.newer shown.
Proof.
  apply (empty_search_lists_every_article
           (fun _ text => (text, 0%nat)) [""] edited_store).
  reflexivity.
Defined.

(** ** The list of feeds *)

Lemma feed_dates_compare_equal (a b : Page.NewFeed.t) :
  Page.SortCompare
    (Page.Number_minus (Page.ToNumber_json (Page.NewFeed.updated b))
                       (Page.ToNumber_json (Page.NewFeed.updated a))) = 0.
Proof.
  destruct (Page.NewFeed.updated a), (Page.NewFeed.updated b); reflexivity.
Qed.

Lemma compare_feeds_before a b :
  Page.SortCompare (Page.compare_feeds a b) <= 0 <->
  Page.feed_shown_before a b.
Proof.
  unfold Page.compare_feeds, Page.feed_shown_before.
  destruct (Nat.eqb_spec (Page.NewFeed.title_matches a)
                         (Page.NewFeed.title_matches b)) as [Et|Nt];
    simpl.
  - destruct (Nat.eqb_spec (Page.NewFeed.description_matches a)
                           (Page.NewFeed.description_matches b)) as [Ed|Nd];
      simpl.
    + rewrite feed_dates_compare_equal. split; [|lia].
      intros _. right. split; [exact Et | lia].
    + split.
      * intros H. right. split; [exact Et | lia].
      * intros [H|[_ H]]; lia.
  - split.
    + intros H. left. lia.
    + intros [H|[H _]]; lia.
Qed.

Lemma feed_shown_before_total a b :
  ~ Page.feed_shown_before a b -> Page.feed_shown_before b a.
Proof.
  unfold Page.feed_shown_before. intros Hn.
  destruct (Nat.lt_total (Page.NewFeed.title_matches a)
                         (Page.NewFeed.title_matches b)) as [H|[H|H]];
    [now left | | exfalso; apply Hn; now left].
  right. split; [now symmetry|].
  destruct (Nat.le_gt_cases (Page.NewFeed.description_matches a)
                            (Page.NewFeed.description_matches b))
    as [G|G]; [exact G|].
  exfalso. apply Hn. right. split; [exact H | lia].
Qed.

Lemma feed_shown_before_trans a b c :
  Page.feed_shown_before a b -> Page.feed_shown_before b c ->
  Page.feed_shown_before a c.
Proof.
  unfold Page.feed_shown_before. intros [H1|[E1 H1]] [H2|[E2 H2]].
  - left. lia.
  - left. lia.
  - left. lia.
  - right. split; lia.
Qed.

(** X19. The list of feeds, for any search and any file.  Listing the
    feeds throws exactly when the search box holds a term and some feed
    has no title or no description.  When it returns, the feeds shown
    are the marked feeds that pass the threshold, each once, ordered by
    more title matches and then more description matches; the dates of
    the feeds play no part in the order. *)
Theorem listing_of_feeds
  (replace_counting : list string -> string -> string * nat)
  (pieces : list string) (rawFeeds : list RawFeed.t) :
  (Page.update_list_feeds replace_counting pieces (Page.feeds rawFeeds)
     = None <->
   Page.search_terms pieces <> [] /\
   existsb Page.feed_untitled (Page.feeds rawFeeds) = true) /\
  (forall shown,
     Page.update_list_feeds replace_counting pieces (Page.feeds rawFeeds)
       = Some shown ->
     StronglySorted Page.feed_shown_before shown /\
     exists marked,
       Page.map_throw
         (Page.mark_feed replace_counting (Page.search_terms pieces))
         (Page.feeds rawFeeds) = Some marked /\
       Permutation shown
         (filter (Page.feed_passes (Page.search_terms pieces)) marked)).
Proof.
  unfold Page.update_list_feeds.
  set (terms := Page.search_terms pieces).
  set (fs := Page.feeds rawFeeds).
  split.
  - destruct (Page.map_throw (Page.mark_feed replace_counting terms) fs)
      as [marked|] eqn:E.
    + split; [discriminate|]. intros [Hterms Hex].
      apply existsb_exists in Hex as (feed & Hin & Hun).
      assert (Hnone : Page.map_throw
                        (Page.mark_feed replace_counting terms) fs = None).
      { apply (proj2 (map_throw_None _ _
                        (Page.mark_feed replace_counting terms) fs)).
        exists feed. split; [exact Hin|].
        apply mark_feed_None. auto. }
      congruence.
    + split; [|reflexivity]. intros _.
      apply map_throw_None in E as (feed & Hin & Hnone).
      apply mark_feed_None in Hnone as [Hterms Hun].
      split; [exact Hterms|]. apply existsb_exists. eauto.
  - intros shown H.
    destruct (Page.map_throw (Page.mark_feed replace_counting terms) fs)
      as [marked|] eqn:E; [|discriminate].
    injection H as <-. split.
    + apply (Array_sort_sorted _ Page.compare_feeds (fun _ => True)).
      * intros a b _ _ Hle. now apply compare_feeds_before.
      * intros a b _ _ Hn. apply feed_shown_before_total.
        intros Hab. apply Hn. now apply compare_feeds_before.
      * intros a b c _ _ _. apply feed_shown_before_trans.
      * rewrite Forall_forall. auto.
    + exists marked. split; [reflexivity | apply Array_sort_perm].
Qed.

(** X20. With the search box empty, the page lists the feeds exactly in
    the order of the file, whatever their dates: the comparator's last
    key subtracts the stored [updated] values, which are never two
    numbers that differ, so the sort moves nothing. *)
Theorem empty_search_keeps_file_order
  (replace_counting : list string -> string -> string * nat)
  (pieces : list string) (rawFeeds : list RawFeed.t) :
  Page.search_terms pieces = [] ->
  Page.update_list_feeds replace_counting pieces (Page.feeds rawFeeds)
  = Some (map Page.plain_feed (Page.feeds rawFeeds)).
Proof.
  intros Hterms. unfold Page.update_list_feeds. rewrite Hterms.
  rewrite (map_throw_total _ _ (Page.mark_feed replace_counting [])
             Page.plain_feed) by reflexivity.
  rewrite filter_all by reflexivity.
  f_equal.
  set (l := map Page.plain_feed (Page.feeds rawFeeds)).
  assert (Hl : Forall (fun m => Page.NewFeed.title_matches m = 0%nat /\
                                Page.NewFeed.description_matches m = 0%nat)
                      l).
  { subst l. rewrite Forall_forall. intros m Hm.
    apply in_map_iff in Hm as (feed & <- & _). split; reflexivity. }
  clearbody l. induction Hl as [|x l [Tx Dx] Hl IH]; simpl; [reflexivity|].
  rewrite IH. destruct Hl as [|y l [Ty Dy] Hl]; simpl; [reflexivity|].
  unfold Page.compare_feeds. rewrite Tx, Ty, Dx, Dy. simpl.
  rewrite feed_dates_compare_equal. reflexivity.
Qed.

(** The saved blog after a later edit, listed with an empty search. *)
Lemma empty_search_keeps_file_order_witness :
  Page.update_list_feeds (fun _ text => (text, 0%nat)) [""; ""]
    (Page.feeds (save edited_store))
  = Some (map Page.plain_feed (Page.feeds (save edited_store))).
Proof.
  apply (empty_search_keeps_file_order
           (fun _ text => (text, 0%nat)) [""; ""] (save edited_store)).
  reflexivity.
Defined.
